(** * Instance mask decomposition of [PennFudanDataset.__getitem__]

    A shallow embedding of the part of the notebook's dataset class that
    turns one colour-indexed label image into per-instance binary masks,
    bounding boxes, areas and the constant label / crowd vectors, followed by
    the properties the specification states about it.

    Conventions of the embedding:
    - the label image [np.array(Image.open(mask_path))] is a row-major list of
      rows of unsigned pixel values ([N]); its shape (H, W) is a relation
      ([has_shape]) because numpy keeps W even when H = 0;
    - numpy / torch calls that can raise are functions into [result], with
      the exception the library raises;
    - int64 tensors hold [Z]; the uint8 mask tensor holds [N] (0 or 1);
    - the float32 [boxes] and [area] tensors hold integer values and are
      carried as [Z].  The entries of [boxes] are pixel indices, which
      float32 holds exactly up to 2^24; the arithmetic on them is float32
      arithmetic: each difference and product is rounded to the nearest
      float32, ties to even ([torch.round_f32]). *)

From stdpp Require Import base list numbers sets strings sorting.
From Stdlib Require Import ZArith NArith Lia Sorted Ascii.

Local Open Scope nat_scope.

(** ** Exceptions and fallible results *)

(** [IndexError] and [ValueError] are the Python exceptions the modelled code
    can raise.  [EmptyLabelImageError] and [InconsistentLabelError] are the
    error names of the specification; they are part of the type so that the
    specification's sentences can be stated, and no definition below
    produces them. *)
Inductive exn : Set :=
| IndexError
| ValueError
| EmptyLabelImageError
| InconsistentLabelError.

Definition result (A : Type) : Type := (exn + A)%type.

Abbreviation raise e := (inl e).
Abbreviation ok a := (inr a).

Definition bind {A B} (m : result A) (k : A → result B) : result B :=
  match m with
  | inl e => inl e
  | inr a => k a
  end.

Notation "'do' x <- m ; k" := (bind m (fun x => k))
  (at level 10, x name, m at level 100, k at level 200).

(** Run a fallible function over a list, left to right, stopping at the
    first exception. *)
Fixpoint traverse {A B} (f : A → result B) (l : list A) : result (list B) :=
  match l with
  | [] => ok []
  | a :: l' => do b <- f a; do bs <- traverse f l'; ok (b :: bs)
  end.

(** ** numpy *)

Module np.

(** A 2-D array as its rows. *)
Abbreviation ndarray2 A := (list (list A)) (only parsing).

Definition has_shape {A} (H W : nat) (a : ndarray2 A) : Prop :=
  length a = H ∧ Forall (λ row, length row = W) a.

(** [a[r, c]], when (r, c) is inside the array. *)
Definition item {A} (a : ndarray2 A) (r c : nat) : option A :=
  a !! r ≫= λ row, row !! c.

(** Insert a value in an ascending duplicate-free list. *)
Fixpoint sorted_insert (v : N) (l : list N) : list N :=
  match l with
  | [] => [v]
  | x :: l' =>
      match (v ?= x)%N with
      | Lt => v :: l
      | Eq => l
      | Gt => x :: sorted_insert v l'
      end
  end.

(** [np.unique(a)]: the sorted distinct values of the flattened array. *)
Definition unique (a : ndarray2 N) : list N :=
  foldr sorted_insert [] (concat a).

(** [a == v] broadcast over one 2-D array. *)
Definition eq_scalar (a : ndarray2 N) (v : N) : ndarray2 bool :=
  fmap (M:=list) (λ p, N.eqb p v) <$> a.

(** [mask == obj_ids[:, None, None]]: one boolean plane per id. *)
Definition eq_broadcast (a : ndarray2 N) (ids : list N) : list (ndarray2 bool) :=
  eq_scalar a <$> ids.

(** Column indices of the true entries of one row, starting at column [c]. *)
Fixpoint nonzero_from (c : nat) (row : list bool) : list nat :=
  match row with
  | [] => []
  | b :: row' =>
      if b then c :: nonzero_from (S c) row' else nonzero_from (S c) row'
  end.

(** (row, column) of the true entries, in row-major order, rows numbered
    from [r]. *)
Fixpoint argwhere_from (r : nat) (m : ndarray2 bool) : list (nat * nat) :=
  match m with
  | [] => []
  | row :: m' => ((λ c, (r, c)) <$> nonzero_from 0 row) ++ argwhere_from (S r) m'
  end.

(** [np.where(m)] on a 2-D boolean array: the tuple (row indices, column
    indices) of its true entries. *)
Definition where_ (m : ndarray2 bool) : list nat * list nat :=
  let pos := argwhere_from 0 m in (fst <$> pos, snd <$> pos).

(** [np.min] / [np.max] of a 1-D index array; numpy raises [ValueError] on
    a zero-size array. *)
Definition min (l : list nat) : result nat :=
  match l with
  | [] => raise ValueError
  | x :: l' => ok (foldl Nat.min x l')
  end.

Definition max (l : list nat) : result nat :=
  match l with
  | [] => raise ValueError
  | x :: l' => ok (foldl Nat.max x l')
  end.

End np.

(** ** torch *)

Module torch.

(** What [torch.as_tensor] builds from a Python list of rows: a 2-D tensor
    when there is at least one row, and the 1-D tensor of shape (0,) from
    the empty list. *)
Inductive tensor : Type :=
| Tensor1 (v : list Z)
| Tensor2 (rows : list (list Z)).

Definition as_tensor (boxes : list (list nat)) : tensor :=
  match boxes with
  | [] => Tensor1 []
  | _ => Tensor2 (fmap (M:=list) Z.of_nat <$> boxes)
  end.

(** First dimension. *)
Definition size0 (t : tensor) : nat :=
  match t with
  | Tensor1 v => length v
  | Tensor2 rows => length rows
  end.

(** Row [i] of a 2-D tensor. *)
Definition row (t : tensor) (i : nat) : option (list Z) :=
  match t with
  | Tensor1 _ => None
  | Tensor2 rows => rows !! i
  end.

(** [t[:, k]]: two indices on a 1-D tensor raise [IndexError] (too many
    indices), and so does a column out of range. *)
Definition column (t : tensor) (k : nat) : result (list Z) :=
  match t with
  | Tensor1 _ => raise IndexError
  | Tensor2 rows =>
      traverse (λ r, match r !! k with
                     | Some x => ok x
                     | None => raise IndexError
                     end) rows
  end.

(** The float32 nearest to an integer, ties to even: integers of magnitude
    below 2^24 are kept; a larger one keeps its 24 leading bits, rounded on
    the bits dropped.  (Magnitudes stay far below the float32 range: the
    operands are differences of pixel indices and products of two of
    them.) *)
Definition round_f32 (z : Z) : Z :=
  let a := Z.abs z in
  let e := Z.log2 a in
  if (e <? 24)%Z then z
  else
    let s := (e - 23)%Z in
    let q := Z.shiftr a s in
    let r := Z.land a (Z.ones s) in
    let half := Z.shiftl 1 (s - 1) in
    let q' := if (half <? r)%Z || ((r =? half)%Z && Z.odd q) then (q + 1)%Z else q in
    (Z.sgn z * Z.shiftl q' s)%Z.

(** Elementwise float32 arithmetic on 1-D tensors of equal length. *)
Definition sub (a b : list Z) : list Z := zip_with (λ x y, round_f32 (x - y)) a b.
Definition mul (a b : list Z) : list Z := zip_with (λ x y, round_f32 (x * y)) a b.

Definition ones (n : nat) : list Z := replicate n 1%Z.
Definition zeros (n : nat) : list Z := replicate n 0%Z.

(** [torch.as_tensor(masks, dtype=torch.uint8)]: True is 1, False is 0. *)
Definition as_uint8 (masks : list (np.ndarray2 bool)) : list (np.ndarray2 N) :=
  fmap (M:=list) (fmap (M:=list) N.b2n) <$> masks.

End torch.

(** ** The dataset class *)

Module PennFudanDataset.

(** The [target] dictionary, one field per key. *)
Record target : Type := Target {
  boxes : torch.tensor;
  labels : list Z;
  masks : list (np.ndarray2 N);
  image_id : list Z;
  area : list Z;
  iscrowd : list Z
}.

(** Body of the [for i in range(num_objs)] loop: the box of one boolean
    plane, as [xmin, ymin, xmax, ymax]. *)
Definition box_of (m : np.ndarray2 bool) : result (list nat) :=
  let pos := np.where_ m in
  do xmin <- np.min (snd pos);
  do xmax <- np.max (snd pos);
  do ymin <- np.min (fst pos);
  do ymax <- np.max (fst pos);
  ok [xmin; ymin; xmax; ymax].

(** [__getitem__] from the line after [obj_ids = obj_ids[1:]] on, with the
    ids as a parameter. *)
Definition target_of_ids (idx : nat) (mask : np.ndarray2 N) (obj_ids : list N)
  : result target :=
  let masks := np.eq_broadcast mask obj_ids in
  let num_objs := length obj_ids in
  do boxes <- traverse box_of masks;
  let boxes := torch.as_tensor boxes in
  let labels := torch.ones num_objs in
  let masks := torch.as_uint8 masks in
  let image_id := [Z.of_nat idx] in
  do b3 <- torch.column boxes 3;
  do b1 <- torch.column boxes 1;
  do b2 <- torch.column boxes 2;
  do b0 <- torch.column boxes 0;
  let area := torch.mul (torch.sub b3 b1) (torch.sub b2 b0) in
  let iscrowd := torch.zeros num_objs in
  ok (Target boxes labels masks image_id area iscrowd).

(** The ids after [obj_ids = np.unique(mask); obj_ids = obj_ids[1:]]: the
    slice drops the first, that is the smallest, value. *)
Definition obj_ids (mask : np.ndarray2 N) : list N := tail (np.unique mask).

(** [__getitem__(idx)] on the already decoded label image [mask], with
    [transforms = None]; the result is the [target] half of the returned
    pair (the RGB image is passed through untouched).  This is the
    specification's [decompose]. *)
Definition __getitem__ (idx : nat) (mask : np.ndarray2 N) : result target :=
  target_of_ids idx mask (obj_ids mask).

End PennFudanDataset.

Import PennFudanDataset.

(** ** Predicates and inputs used in the statements *)

(** The entry of a boolean plane at (r, c) is true. *)
Definition holds_true (m : np.ndarray2 bool) (r c : nat) : Prop :=
  np.item m r c = Some true.

(** The uint8 mask [m] is set (holds 1) at (r, c). *)
Definition is_set (m : np.ndarray2 N) (r c : nat) : Prop :=
  np.item m r c = Some 1%N.

(** A box that is tight around the true entries of a plane. *)
Definition tight (m : np.ndarray2 bool) (xmin ymin xmax ymax : nat) : Prop :=
  (∀ r c, holds_true m r c → xmin ≤ c ≤ xmax ∧ ymin ≤ r ≤ ymax) ∧
  (∃ r, holds_true m r xmin) ∧ (∃ r, holds_true m r xmax) ∧
  (∃ c, holds_true m ymin c) ∧ (∃ c, holds_true m ymax c).

(** The 3x3 grid of the specification's first example scenario. *)
Definition grid9 : np.ndarray2 N := [[0;0;1];[0;1;1];[2;2;0]]%N.

(** The labels 7, 3, 1 scattered over a background. *)
Definition scattered : np.ndarray2 N := [[7;0;3];[0;1;0]]%N.

(** An image of h+1 rows and w+1 columns: a background pixel in the top-left
    corner and the label 1 everywhere else. *)
Definition corner_image (h w : nat) : np.ndarray2 N :=
  (0%N :: replicate w 1%N) :: replicate h (replicate (S w) 1%N).

(** * The code around the dataset class *)

(** ** Python lists *)

Module py.

(** The position a negative slice bound [-k], k > 0, stands for on a list of
    length [n]: max(n - k, 0). *)
Definition neg_bound (k n : nat) : nat := n - k.

(** [l[:-k]] for k > 0. *)
Definition slice_to_neg {A} (k : nat) (l : list A) : list A :=
  take (neg_bound k (length l)) l.

(** [l[-k:]] for k > 0. *)
Definition slice_from_neg {A} (k : nat) (l : list A) : list A :=
  drop (neg_bound k (length l)) l.

(** [l[i]] for an index i >= 0; Python raises [IndexError] past the end. *)
Definition index {A} (l : list A) (i : nat) : result A :=
  match l !! i with
  | Some x => ok x
  | None => raise IndexError
  end.

End py.

(** ** [torch.utils.data.Subset] *)

Module Subset.

(** A subset of a dataset at the given indices.  The wrapped dataset is its
    [__getitem__], a fallible function of the index. *)
Record t (S : Type) : Type := Make {
  dataset : nat → result S;
  indices : list nat
}.
Arguments Make {S} _ _.
Arguments dataset {S} _ _.
Arguments indices {S} _.

(** [return self.dataset[self.indices[idx]]] *)
Definition __getitem__ {S} (self : t S) (idx : nat) : result S :=
  do j <- py.index (indices self) idx; dataset self j.

(** [return len(self.indices)] *)
Definition __len__ {S} (self : t S) : nat := length (indices self).

End Subset.

(** ** The train / test split *)

(** [dataset = Subset(dataset, indices[:-50])] and
    [dataset_test = Subset(dataset_test, indices[-50:])], where [indices] is
    the list drawn by [torch.randperm(len(dataset)).tolist()]. *)
Definition train_test_split {S} (dataset dataset_test : nat → result S)
    (indices : list nat) : Subset.t S * Subset.t S :=
  (Subset.Make dataset (py.slice_to_neg 50 indices),
   Subset.Make dataset_test (py.slice_from_neg 50 indices)).

(** ** [os.path.join] (posixpath) *)

Module os_path.

(** [b.startswith('/')] *)
Definition startswith_sep (b : string) : bool :=
  match b with
  | String c _ => Ascii.eqb c "/"%char
  | EmptyString => false
  end.

(** [path.endswith('/')] *)
Fixpoint endswith_sep (path : string) : bool :=
  match path with
  | EmptyString => false
  | String c EmptyString => Ascii.eqb c "/"%char
  | String _ rest => endswith_sep rest
  end.

(** One turn of the loop of [join]: an absolute component replaces the path,
    another one is appended, after a separator unless the path is empty or
    ends with one. *)
Definition join_step (path b : string) : string :=
  if startswith_sep b then b
  else if String.eqb path EmptyString || endswith_sep path then path +:+ b
  else path +:+ "/" +:+ b.

(** [os.path.join(a, *p)] *)
Definition join (a : string) (p : list string) : string := foldl join_step a p.

End os_path.

(** ** The files of the dataset *)

Module PennFudanFiles.

(** The attributes [__init__] sets (the transforms are left out: the model
    of [__getitem__] is the one with [transforms = None]). *)
Record self : Type := Self {
  root : string;
  imgs : list string;
  masks : list string
}.

(** Python's [sorted] on a list of [str]: the ascending rearrangement under
    the lexicographic order of the character codes. *)
Definition sorted (l : list string) : list string := merge_sort String.le l.

(** [__init__(root)], with [os.listdir] as a parameter. *)
Definition __init__ (listdir : string → list string) (root : string) : self :=
  {| root := root;
     imgs := sorted (listdir (os_path.join root ["PNGImages"]));
     masks := sorted (listdir (os_path.join root ["PedMasks"])) |}.

(** [__len__] *)
Definition __len__ (s : self) : nat := length (imgs s).

(** The first two statements of [__getitem__]: the paths of the image and of
    the mask of item [idx] (idx >= 0). *)
Definition paths (s : self) (idx : nat) : result (string * string) :=
  do img_name <- py.index (imgs s) idx;
  let img_path := os_path.join (root s) ["PNGImages"; img_name] in
  do mask_name <- py.index (masks s) idx;
  let mask_path := os_path.join (root s) ["PedMasks"; mask_name] in
  ok (img_path, mask_path).

(** [__getitem__] from the paths on: the mask file is decoded
    ([np.array(Image.open(mask_path))], a parameter) and decomposed. *)
Definition getitem (decode : string → np.ndarray2 N) (s : self) (idx : nat)
  : result target :=
  do p <- paths s idx;
  __getitem__ idx (decode p.2).

End PennFudanFiles.

(** ** The compositing cell *)

(** What the cell that pastes a background over the detected person can
    raise: OpenCV's [cv2.error] and the [IndexError] of numpy indexing. *)
Inductive cell_exn : Set :=
| Cv2Error
| CellIndexError.

(** Indexed traversal: [f] sees the position of each element, positions
    counted from [i]; the first exception stops it. *)
Fixpoint itraverse {E A B} (f : nat → A → E + B) (i : nat) (l : list A)
  : E + list B :=
  match l with
  | [] => inr []
  | a :: l' =>
      match f i a with
      | inl e => inl e
      | inr b =>
          match itraverse f (S i) l' with
          | inl e => inl e
          | inr bs => inr (b :: bs)
          end
      end
  end.

Module cv.

(** A colour image, H x W x C, and a single-channel one, H x W; uint8
    entries. *)
Abbreviation image := (list (list (list N))) (only parsing).
Abbreviation gray := (list (list N)) (only parsing).

Definition zip_with3 {A B C D} (f : A → B → C → D)
    (l1 : list A) (l2 : list B) (l3 : list C) : list D :=
  zip_with (λ g c, g c) (zip_with f l1 l2) l3.

(** One pixel of a masked [bitwise_and] into a fresh destination: the
    conjunction where the mask is non-zero, zeros elsewhere. *)
Definition and_pixel (p1 p2 : list N) (m : N) : list N :=
  if N.eqb m 0 then (λ _, 0%N) <$> p1 else zip_with N.land p1 p2.

(** [cv.bitwise_and(src1, src2, mask=mask)]: the sources must have one
    shape and the mask their height and width, otherwise [cv2.error]. *)
Definition bitwise_and (src1 src2 : image) (mask : gray) : cell_exn + image :=
  if bool_decide (fmap (M:=list) length <$> src1 = fmap (M:=list) length <$> src2)
     && bool_decide (length <$> src1 = length <$> mask)
  then inr (zip_with3 (zip_with3 and_pixel) src1 src2 mask)
  else inl Cv2Error.

(** One pixel of [inRange] with bounds of three entries: a pixel of three
    channels gives 255 when every channel lies between its two bounds and 0
    otherwise; with any other channel count the bounds do not match the
    source and OpenCV raises [cv2.error]. *)
Definition in_range_pixel (lowerb upperb : N * N * N) (px : list N)
  : cell_exn + N :=
  match px with
  | [c0; c1; c2] =>
      let '(l0, l1, l2) := lowerb in
      let '(u0, u1, u2) := upperb in
      inr (if ((l0 <=? c0) && (c0 <=? u0) && (l1 <=? c1) && (c1 <=? u1)
               && (l2 <=? c2) && (c2 <=? u2))%N
           then 255%N else 0%N)
  | _ => inl Cv2Error
  end.

(** [cv.inRange(src, (l0, l1, l2), (u0, u1, u2))]: [cv2.error] on a source
    without pixels (OpenCV asserts that it is not empty) and on a source
    whose pixels do not have three channels; otherwise the single-channel
    image of the per-pixel tests. *)
Definition inRange (src : image) (lowerb upperb : N * N * N) : cell_exn + gray :=
  if bool_decide (concat src = []) then inl Cv2Error
  else itraverse (λ _ row,
         itraverse (λ _ px, in_range_pixel lowerb upperb px) 0 row) 0 src.

End cv.

(** [a[i][j][k]] on a 3-D array; [IndexError] outside. *)
Definition item3 (a : cv.image) (i j k : nat) : option N :=
  a !! i ≫= λ row, row !! j ≫= λ px, px !! k.

(** The triple loop: every entry of [img2] that is 0 is overwritten with the
    entry of [img3] at the same position. *)
Definition fill_zeros (img2 img3 : cv.image) : cell_exn + cv.image :=
  itraverse (λ i row,
    itraverse (λ j px,
      itraverse (λ k v,
        if N.eqb v 0
        then match item3 img3 i j k with
             | Some w => inr w
             | None => inl CellIndexError
             end
        else inr v) 0 px) 0 row) 0 img2.

(** The cell from [img1 = img.copy()] to the end of the loop: [img] is the
    photo, [res] the predicted mask scaled to 0..255, [img3] the background
    picture read from disk; the result is the final [img2]. *)
Definition paste_background (img : cv.image) (res : cv.gray) (img3 : cv.image)
  : cell_exn + cv.image :=
  let img1 := img in
  let img2 := img in
  match cv.bitwise_and img1 img1 res with
  | inl e => inl e
  | inr img1 =>
      match cv.inRange img1 (0, 0, 0)%N (0, 0, 0)%N with
      | inl e => inl e
      | inr img1 =>
          match cv.bitwise_and img2 img2 img1 with
          | inl e => inl e
          | inr img2 => fill_zeros img2 img3
          end
      end
  end.

(** ** Notions used in the statements about the cell *)

(** An image with the pixels under a zero mask entry blanked: what the masked
    conjunction of an image with itself amounts to. *)
Definition keep_where (img : cv.image) (mask : cv.gray) : cv.image :=
  zip_with (zip_with (λ px m, (λ v, if N.eqb m 0 then 0%N else v) <$> px)) img mask.

(** The lengths of all rows and of all pixels: the shape of a 3-D array. *)
Definition shape3 (a : cv.image) : list (list nat) :=
  fmap (M:=list) length <$> a.

(** Every channel of the pixel is 0. *)
Definition black (px : list N) : bool := forallb (λ c, N.eqb c 0) px.

(** The single-channel image that is 255 at the black pixels and 0 at the
    others: what [inRange] with all bounds 0 computes when it succeeds. *)
Definition zero_mask (a : cv.image) : cv.gray :=
  fmap (M:=list) (λ px, if black px then 255%N else 0%N) <$> a.

(** Every pixel has three channels. *)
Definition three_channel (a : cv.image) : Prop :=
  Forall (Forall (λ px : list N, length px = 3)) a.

(** ** Directory trees used as examples *)

(** A directory tree in which PedMasks lacks the mask of the second image. *)
Definition listdir_missing_mask (dir : string) : list string :=
  if String.eqb dir "PennFudanPed/PNGImages"
  then ["FudanPed00002.png"; "FudanPed00001.png"]
  else ["FudanPed00001_mask.png"].

(** A directory tree listed in different orders in the two directories. *)
Definition listdir_two (dir : string) : list string :=
  if String.eqb dir "PennFudanPed/PNGImages"
  then ["FudanPed00002.png"; "FudanPed00001.png"]
  else ["FudanPed00001_mask.png"; "FudanPed00002_mask.png"].

(** A directory tree whose stems have different lengths. *)
Definition listdir_uneven (dir : string) : list string :=
  if String.eqb dir "data/PNGImages"
  then ["a.png"; "a0.png"]
  else ["a_mask.png"; "a0_mask.png"].

(** * Facts about the numpy layer *)

Section unique_facts.

Lemma elem_of_sorted_insert (v x : N) (l : list N) :
  x ∈ np.sorted_insert v l ↔ x = v ∨ x ∈ l.
Proof.
  induction l as [|y l IH]; simpl.
  - rewrite list_elem_of_singleton, elem_of_nil. tauto.
  - destruct (N.compare_spec v y) as [->|Hlt|Hgt];
      rewrite ?elem_of_cons, ?IH, ?elem_of_cons; tauto.
Qed.

Lemma sorted_insert_sorted (v : N) (l : list N) :
  StronglySorted N.lt l → StronglySorted N.lt (np.sorted_insert v l).
Proof.
  induction 1 as [|y l Hs IH Hall]; simpl.
  - repeat constructor.
  - destruct (N.compare_spec v y) as [->|Hlt|Hgt].
    + by constructor.
    + constructor; [by constructor|].
      constructor; [done|].
      eapply Forall_impl; [exact Hall|]. intros z Hz; simpl in *; lia.
    + constructor; [done|].
      rewrite Forall_forall. intros x [->|Hx]%elem_of_sorted_insert; [lia|].
      rewrite Forall_forall in Hall. by apply Hall.
Qed.

Lemma elem_of_concat {A} (a : list (list A)) (x : A) :
  x ∈ concat a ↔ ∃ row, row ∈ a ∧ x ∈ row.
Proof.
  induction a as [|r a IH]; simpl.
  - split; [by intros ?%elem_of_nil|by intros (? & ?%elem_of_nil & _)].
  - rewrite elem_of_app, IH. split.
    + intros [Hx|(row & Hrow & Hx)].
      * exists r. split; [left|done].
      * exists row. split; [by right|done].
    + intros (row & [->|Hrow]%elem_of_cons & Hx); [by left|right; eauto].
Qed.

Lemma elem_of_unique (a : np.ndarray2 N) (x : N) :
  x ∈ np.unique a ↔ ∃ row, row ∈ a ∧ x ∈ row.
Proof.
  unfold np.unique. rewrite <- elem_of_concat.
  induction (concat a) as [|y l IH]; simpl; [done|].
  rewrite elem_of_sorted_insert, IH, elem_of_cons. tauto.
Qed.

Lemma unique_sorted (a : np.ndarray2 N) : StronglySorted N.lt (np.unique a).
Proof.
  unfold np.unique. induction (concat a) as [|y l IH]; simpl.
  - constructor.
  - by apply sorted_insert_sorted.
Qed.

End unique_facts.

Section where_facts.

Lemma elem_of_nonzero_from (c0 : nat) (row : list bool) (c : nat) :
  c ∈ np.nonzero_from c0 row ↔ ∃ k, c = c0 + k ∧ row !! k = Some true.
Proof.
  revert c0. induction row as [|b row IH]; intros c0; simpl.
  - split; [by intros ?%elem_of_nil|by intros (? & _ & ?)].
  - assert (c ∈ np.nonzero_from (S c0) row ↔
            ∃ k, c = c0 + S k ∧ row !! k = Some true) as IH'.
    { rewrite IH. split; intros (k & -> & Hk); exists k; split; auto; lia. }
    destruct b; rewrite ?elem_of_cons, IH'.
    + split.
      * intros [->|(k & -> & Hk)]; [exists 0|exists (S k)]; split; auto; lia.
      * intros ([|k] & -> & Hk); [left; lia|right; eauto].
    + split.
      * intros (k & -> & Hk). exists (S k); auto.
      * intros ([|k] & -> & Hk); [done|eauto].
Qed.

Lemma elem_of_argwhere_from (r0 : nat) (m : np.ndarray2 bool) (r c : nat) :
  (r, c) ∈ np.argwhere_from r0 m ↔
  ∃ k row, r = r0 + k ∧ m !! k = Some row ∧ row !! c = Some true.
Proof.
  revert r0. induction m as [|row0 m IH]; intros r0; simpl.
  - split; [by intros ?%elem_of_nil|by intros (? & ? & _ & ? & _)].
  - rewrite elem_of_app, list_elem_of_fmap, IH. split.
    + intros [(c' & [= -> ->] & Hc)|(k & row & -> & Hk & Hc)].
      * apply elem_of_nonzero_from in Hc as (k & -> & Hk).
        exists 0, row0. split; [lia|done].
      * exists (S k), row. split; [lia|done].
    + intros ([|k] & row & -> & Hk & Hc); simpl in Hk.
      * left. injection Hk as ->. exists c. split; [f_equal; lia|].
        apply elem_of_nonzero_from. by exists c.
      * right. exists k, row. split; [lia|done].
Qed.

Lemma item_Some {A} (a : np.ndarray2 A) (r c : nat) (x : A) :
  np.item a r c = Some x ↔ ∃ row, a !! r = Some row ∧ row !! c = Some x.
Proof. unfold np.item. apply bind_Some. Qed.

Lemma elem_of_argwhere (m : np.ndarray2 bool) (r c : nat) :
  (r, c) ∈ np.argwhere_from 0 m ↔ holds_true m r c.
Proof.
  rewrite elem_of_argwhere_from. unfold holds_true. rewrite item_Some. split.
  - intros (k & row & -> & ?). by exists row.
  - intros (row & ?). by exists r, row.
Qed.

Lemma elem_of_where_rows (m : np.ndarray2 bool) (r : nat) :
  r ∈ fst (np.where_ m) ↔ ∃ c, holds_true m r c.
Proof.
  unfold np.where_; simpl. rewrite list_elem_of_fmap. split.
  - intros ([r' c] & -> & H). exists c. by apply elem_of_argwhere.
  - intros (c & H). exists (r, c). split; [done|by apply elem_of_argwhere].
Qed.

Lemma elem_of_where_cols (m : np.ndarray2 bool) (c : nat) :
  c ∈ snd (np.where_ m) ↔ ∃ r, holds_true m r c.
Proof.
  unfold np.where_; simpl. rewrite list_elem_of_fmap. split.
  - intros ([r c'] & -> & H). exists r. by apply elem_of_argwhere.
  - intros (r & H). exists (r, c). split; [done|by apply elem_of_argwhere].
Qed.

End where_facts.

Section extrema_facts.

Lemma foldl_min_spec (l : list nat) (x : nat) :
  (foldl Nat.min x l = x ∨ foldl Nat.min x l ∈ l) ∧
  foldl Nat.min x l ≤ x ∧ ∀ y, y ∈ l → foldl Nat.min x l ≤ y.
Proof.
  revert x. induction l as [|z l IH]; intros x; simpl.
  - split; [by left|]. split; [lia|]. by intros y ?%elem_of_nil.
  - destruct (IH (Nat.min x z)) as (Hin & Hle & Hall).
    split; [|split].
    + destruct Hin as [Heq|Hin]; [|right; by right].
      rewrite Heq. destruct (Nat.min_spec x z) as [[_ ->]|[_ ->]].
      * by left.
      * right. by left.
    + lia.
    + intros y [->|Hy]%elem_of_cons; [lia|by apply Hall].
Qed.

Lemma foldl_max_spec (l : list nat) (x : nat) :
  (foldl Nat.max x l = x ∨ foldl Nat.max x l ∈ l) ∧
  x ≤ foldl Nat.max x l ∧ ∀ y, y ∈ l → y ≤ foldl Nat.max x l.
Proof.
  revert x. induction l as [|z l IH]; intros x; simpl.
  - split; [by left|]. split; [lia|]. by intros y ?%elem_of_nil.
  - destruct (IH (Nat.max x z)) as (Hin & Hle & Hall).
    split; [|split].
    + destruct Hin as [Heq|Hin]; [|right; by right].
      rewrite Heq. destruct (Nat.max_spec x z) as [[_ ->]|[_ ->]].
      * right. by left.
      * by left.
    + lia.
    + intros y [->|Hy]%elem_of_cons; [lia|by apply Hall].
Qed.

Lemma min_ok (l : list nat) (n : nat) :
  np.min l = ok n → n ∈ l ∧ ∀ y, y ∈ l → n ≤ y.
Proof.
  destruct l as [|x l]; [done|]. intros [= <-].
  destruct (foldl_min_spec l x) as (Hin & Hle & Hall). split.
  - destruct Hin as [->|Hin]; [by left|by right].
  - intros y [->|Hy]%elem_of_cons; [done|by apply Hall].
Qed.

Lemma max_ok (l : list nat) (n : nat) :
  np.max l = ok n → n ∈ l ∧ ∀ y, y ∈ l → y ≤ n.
Proof.
  destruct l as [|x l]; [done|]. intros [= <-].
  destruct (foldl_max_spec l x) as (Hin & Hle & Hall). split.
  - destruct Hin as [->|Hin]; [by left|by right].
  - intros y [->|Hy]%elem_of_cons; [done|by apply Hall].
Qed.

Lemma min_raises (l : list nat) (e : exn) :
  np.min l = raise e → l = [] ∧ e = ValueError.
Proof. destruct l; [by intros [= <-]|done]. Qed.

Lemma max_raises (l : list nat) (e : exn) :
  np.max l = raise e → l = [] ∧ e = ValueError.
Proof. destruct l; [by intros [= <-]|done]. Qed.

End extrema_facts.

(** * Facts about [traverse] *)

Section traverse_facts.

Context {A B : Type} (f : A → result B).

Lemma traverse_ok_Forall2 (l : list A) (bs : list B) :
  traverse f l = ok bs → Forall2 (λ a b, f a = ok b) l bs.
Proof.
  revert bs. induction l as [|a l IH]; intros bs; simpl.
  - intros [= <-]. constructor.
  - destruct (f a) as [e|b] eqn:Hfa; simpl; [done|].
    destruct (traverse f l) as [e|bs'] eqn:Hl; simpl; [done|].
    intros [= <-]. constructor; [done|by apply IH].
Qed.

Lemma traverse_raises (l : list A) (e : exn) :
  traverse f l = raise e → ∃ a, a ∈ l ∧ f a = raise e.
Proof.
  induction l as [|a l IH]; simpl; [done|].
  destruct (f a) as [e'|b] eqn:Hfa; simpl.
  - intros [= ->]. exists a. split; [by left|done].
  - destruct (traverse f l) as [e'|bs'] eqn:Hl; simpl; [|done].
    intros [= ->]. destruct IH as (a' & Ha' & Hfa'); [done|].
    exists a'. split; [by right|done].
Qed.

Lemma traverse_total (l : list A) :
  (∀ a, a ∈ l → ∃ b, f a = ok b) → ∃ bs, traverse f l = ok bs.
Proof.
  induction l as [|a l IH]; intros Hall; simpl; [by eexists|].
  destruct (Hall a) as [b ->]; [by left|]. simpl.
  destruct IH as [bs ->]; [intros; apply Hall; by right|]. simpl.
  by eexists.
Qed.

Lemma traverse_stops (l : list A) (a : A) (e : exn) :
  a ∈ l → f a = raise e → ∃ e', traverse f l = raise e'.
Proof.
  induction l as [|a0 l IH]; [by intros ?%elem_of_nil|].
  intros [->|Hin]%elem_of_cons Hfa; simpl.
  - rewrite Hfa. by eexists.
  - destruct (f a0); simpl; [by eexists|].
    destruct IH as [e' ->]; [done..|]. by eexists.
Qed.

End traverse_facts.

(** * Facts about one box *)

Section box_facts.

Lemma box_of_ok (m : np.ndarray2 bool) (b : list nat) :
  box_of m = ok b →
  ∃ xmin ymin xmax ymax, b = [xmin; ymin; xmax; ymax] ∧ tight m xmin ymin xmax ymax.
Proof.
  unfold box_of.
  destruct (np.min (np.where_ m).2) as [|xmin] eqn:Hxmin; cbn [bind]; [done|].
  destruct (np.max (np.where_ m).2) as [|xmax] eqn:Hxmax; cbn [bind]; [done|].
  destruct (np.min (np.where_ m).1) as [|ymin] eqn:Hymin; cbn [bind]; [done|].
  destruct (np.max (np.where_ m).1) as [|ymax] eqn:Hymax; cbn [bind]; [done|].
  intros [= <-]. exists xmin, ymin, xmax, ymax. split; [done|].
  apply min_ok in Hxmin as [Hx0 Hx0le], Hymin as [Hy0 Hy0le].
  apply max_ok in Hxmax as [Hx1 Hx1le], Hymax as [Hy1 Hy1le].
  repeat split.
  - apply Hx0le, elem_of_where_cols. eauto.
  - apply Hx1le, elem_of_where_cols. eauto.
  - apply Hy0le, elem_of_where_rows. eauto.
  - apply Hy1le, elem_of_where_rows. eauto.
  - by apply elem_of_where_cols.
  - by apply elem_of_where_cols.
  - by apply elem_of_where_rows.
  - by apply elem_of_where_rows.
Qed.

Lemma box_of_total (m : np.ndarray2 bool) (r c : nat) :
  holds_true m r c → ∃ b, box_of m = ok b.
Proof.
  intros H. unfold box_of.
  assert (c ∈ (np.where_ m).2) as Hc by (apply elem_of_where_cols; eauto).
  assert (r ∈ (np.where_ m).1) as Hr by (apply elem_of_where_rows; eauto).
  destruct (np.where_ m) as [[|r0 rs] [|c0 cs]]; simpl in *;
    try (by apply elem_of_nil in Hc); try (by apply elem_of_nil in Hr).
  by eexists.
Qed.

Lemma box_of_raises (m : np.ndarray2 bool) (e : exn) :
  box_of m = raise e → e = ValueError.
Proof.
  unfold box_of.
  destruct (np.min (np.where_ m).2) as [e1|xmin] eqn:Hxmin; cbn [bind].
  { intros [= <-]. by apply min_raises in Hxmin as [_ ->]. }
  destruct (np.max (np.where_ m).2) as [e1|xmax] eqn:Hxmax; cbn [bind].
  { intros [= <-]. by apply max_raises in Hxmax as [_ ->]. }
  destruct (np.min (np.where_ m).1) as [e1|ymin] eqn:Hymin; cbn [bind].
  { intros [= <-]. by apply min_raises in Hymin as [_ ->]. }
  destruct (np.max (np.where_ m).1) as [e1|ymax] eqn:Hymax; cbn [bind].
  { intros [= <-]. by apply max_raises in Hymax as [_ ->]. }
  done.
Qed.

Lemma box_of_empty (m : np.ndarray2 bool) :
  (∀ r c, ¬ holds_true m r c) → box_of m = raise ValueError.
Proof.
  intros Hnone. unfold box_of.
  assert ((np.where_ m).2 = []) as ->; [|done].
  destruct (np.where_ m).2 as [|c cs] eqn:Hcs; [done|].
  assert (c ∈ (np.where_ m).2) as (r & Hr)%elem_of_where_cols
    by (rewrite Hcs; by left).
  by destruct (Hnone r c).
Qed.

End box_facts.

(** * Facts about the tensor layer *)

Section tensor_facts.

Lemma item_fmap {A B} (f : A → B) (a : np.ndarray2 A) (r c : nat) :
  np.item (fmap (M:=list) f <$> a) r c = f <$> np.item a r c.
Proof.
  unfold np.item. rewrite list_lookup_fmap.
  destruct (a !! r) as [row|]; simpl; [apply list_lookup_fmap|done].
Qed.

Lemma holds_true_eq_scalar (a : np.ndarray2 N) (v : N) (r c : nat) :
  holds_true (np.eq_scalar a v) r c ↔ np.item a r c = Some v.
Proof.
  unfold holds_true, np.eq_scalar. rewrite item_fmap.
  destruct (np.item a r c) as [p|]; simpl; [|done].
  destruct (N.eqb_spec p v) as [->|Hne]; [done|].
  split; [done|]. intros [= ?]. done.
Qed.

Lemma column_ok_Forall2 (rows : list (list Z)) (k : nat) (col : list Z) :
  torch.column (torch.Tensor2 rows) k = ok col →
  Forall2 (λ r x, r !! k = Some x) rows col.
Proof.
  intros H%traverse_ok_Forall2. eapply Forall2_impl; [exact H|].
  intros r x; simpl. by destruct (r !! k); [intros [= ->]|].
Qed.

Lemma column_total (rows : list (list Z)) (k : nat) :
  Forall (λ r, k < length r) rows →
  ∃ col, torch.column (torch.Tensor2 rows) k = ok col.
Proof.
  intros Hall. apply traverse_total. intros r Hr.
  rewrite Forall_forall in Hall.
  destruct (lookup_lt_is_Some_2 r k (Hall r Hr)) as [x ->]. by eexists.
Qed.

End tensor_facts.

(** * Facts about float32 rounding *)

Section float32_facts.

Local Open Scope Z_scope.

Lemma round_f32_exact (z : Z) : Z.abs z ≤ 2 ^ 24 → torch.round_f32 z = z.
Proof.
  intros Hz. unfold torch.round_f32. cbv zeta.
  destruct (Z.ltb_spec (Z.log2 (Z.abs z)) 24) as [|Hlog]; [done|].
  assert (0 < Z.abs z) as Hpos.
  { destruct (Z.abs z) eqn:Ha; [|lia|lia]. by cbn in Hlog. }
  apply Z.log2_le_pow2 in Hlog; [|done].
  assert (z = 16777216 ∨ z = -16777216) as [-> | ->] by lia; reflexivity.
Qed.




End float32_facts.

(** * Facts about [__getitem__] *)

Section getitem_facts.

(** What a returned target is made of. *)
Lemma target_of_ids_ok (idx : nat) (img : np.ndarray2 N) (ids : list N) (t : target) :
  target_of_ids idx img ids = ok t →
  ∃ bs,
    traverse box_of (np.eq_broadcast img ids) = ok bs ∧
    bs ≠ [] ∧
    boxes t = torch.Tensor2 (fmap (M:=list) Z.of_nat <$> bs) ∧
    labels t = torch.ones (length ids) ∧
    masks t = torch.as_uint8 (np.eq_broadcast img ids) ∧
    image_id t = [Z.of_nat idx] ∧
    iscrowd t = torch.zeros (length ids) ∧
    ∃ b3 b1 b2 b0,
      torch.column (boxes t) 3 = ok b3 ∧ torch.column (boxes t) 1 = ok b1 ∧
      torch.column (boxes t) 2 = ok b2 ∧ torch.column (boxes t) 0 = ok b0 ∧
      area t = torch.mul (torch.sub b3 b1) (torch.sub b2 b0).
Proof.
  unfold target_of_ids. cbv zeta.
  destruct (traverse box_of _) as [e|bs] eqn:Hbs; cbn [bind]; [done|].
  destruct bs as [|b bs]; [done|].
  set (bx := torch.as_tensor (b :: bs)).
  destruct (torch.column bx 3) as [e|b3] eqn:H3; cbn [bind]; [done|].
  destruct (torch.column bx 1) as [e|b1] eqn:H1; cbn [bind]; [done|].
  destruct (torch.column bx 2) as [e|b2] eqn:H2; cbn [bind]; [done|].
  destruct (torch.column bx 0) as [e|b0] eqn:H0; cbn [bind]; [done|].
  intros [= <-]. exists (b :: bs). cbn [boxes labels masks image_id iscrowd area].
  repeat (split; [done|]). by exists b3, b1, b2, b0.
Qed.

Lemma target_of_ids_nil (idx : nat) (img : np.ndarray2 N) :
  target_of_ids idx img [] = raise IndexError.
Proof. reflexivity. Qed.

(** Every id that occurs in the image gets a box, and then the target is
    returned. *)
Lemma target_of_ids_total (idx : nat) (img : np.ndarray2 N) (ids : list N) :
  ids ≠ [] →
  (∀ v, v ∈ ids → ∃ r c, np.item img r c = Some v) →
  ∃ t, target_of_ids idx img ids = ok t.
Proof.
  intros Hne Hpresent. unfold target_of_ids. cbv zeta.
  destruct (traverse_total box_of (np.eq_broadcast img ids)) as [bs Hbs].
  { intros m (v & -> & Hv)%list_elem_of_fmap.
    destruct (Hpresent v Hv) as (r & c & Hrc).
    apply (box_of_total _ r c). by apply holds_true_eq_scalar. }
  rewrite Hbs; cbn [bind].
  apply traverse_ok_Forall2 in Hbs.
  assert (Forall (λ b : list nat, length b = 4) bs) as Hlen.
  { apply Forall_forall. intros b (i & Hi)%list_elem_of_lookup.
    destruct (Forall2_lookup_r _ _ _ _ _ Hbs Hi) as (m & _ & Hm).
    by apply box_of_ok in Hm as (? & ? & ? & ? & -> & _). }
  destruct bs as [|b bs].
  { apply Forall2_length in Hbs. unfold np.eq_broadcast in Hbs.
    rewrite length_fmap in Hbs. by destruct ids. }
  unfold torch.as_tensor.
  assert (∀ k, k < 4 → ∃ col,
    torch.column (torch.Tensor2 (fmap (M:=list) Z.of_nat <$> (b :: bs))) k = ok col)
    as Hcol.
  { intros k Hk. apply column_total, Forall_forall.
    intros r (b' & -> & Hb')%list_elem_of_fmap.
    rewrite Forall_forall in Hlen. rewrite length_fmap, (Hlen b' Hb'). done. }
  destruct (Hcol 3) as [b3 ->]; [lia|]. destruct (Hcol 1) as [b1 ->]; [lia|].
  destruct (Hcol 2) as [b2 ->]; [lia|]. destruct (Hcol 0) as [b0 ->]; [lia|].
  cbn [bind]. by eexists.
Qed.

Lemma elem_of_tail {A} (l : list A) (x : A) : x ∈ tail l → x ∈ l.
Proof. destruct l; simpl; [done|by right]. Qed.

Lemma item_elem_of {A} (a : np.ndarray2 A) (x : A) :
  (∃ row, row ∈ a ∧ x ∈ row) ↔ ∃ r c, np.item a r c = Some x.
Proof.
  split.
  - intros (row & (r & Hr)%list_elem_of_lookup & (c & Hc)%list_elem_of_lookup).
    exists r, c. apply item_Some. eauto.
  - intros (r & c & (row & Hr & Hc)%item_Some).
    exists row. split; eapply list_elem_of_lookup_2; eauto.
Qed.

Lemma obj_ids_present (img : np.ndarray2 N) (v : N) :
  v ∈ obj_ids img → ∃ r c, np.item img r c = Some v.
Proof.
  intros Hv%elem_of_tail%elem_of_unique. by apply item_elem_of.
Qed.

Lemma obj_ids_sorted (img : np.ndarray2 N) : StronglySorted N.lt (obj_ids img).
Proof.
  unfold obj_ids. destruct (unique_sorted img) as [|x l Hs _]; simpl; [constructor|done].
Qed.

(** [__getitem__] either raises [IndexError] (no id is left after the
    slice) or returns a target. *)
Lemma getitem_cases (idx : nat) (img : np.ndarray2 N) :
  (obj_ids img = [] ∧ __getitem__ idx img = raise IndexError) ∨
  (obj_ids img ≠ [] ∧ ∃ t, __getitem__ idx img = ok t).
Proof.
  unfold __getitem__. destruct (obj_ids img) as [|v ids] eqn:Hids.
  - left. split; [done|apply target_of_ids_nil].
  - right. split; [done|]. apply target_of_ids_total; [done|].
    intros v' Hv'. apply obj_ids_present. by rewrite Hids.
Qed.

End getitem_facts.

(** * The instances of a returned target *)

Section instance_facts.

Lemma is_set_uint8 (m : np.ndarray2 bool) (r c : nat) :
  is_set (fmap (M:=list) N.b2n <$> m) r c ↔ holds_true m r c.
Proof.
  unfold is_set, holds_true. rewrite item_fmap.
  destruct (np.item m r c) as [[]|]; simpl; split; done.
Qed.

(** Instance [i] of a returned target: its label value is the i-th id, its
    mask is the uint8 image of [mask == v], and its box is the one the loop
    computed from that plane. *)
Lemma getitem_instance (idx : nat) (img : np.ndarray2 N) (t : target)
    (i : nat) (m : list (list N)) :
  __getitem__ idx img = ok t →
  masks t !! i = Some m →
  ∃ v b,
    obj_ids img !! i = Some v ∧
    m = (fmap (M:=list) N.b2n <$> np.eq_scalar img v) ∧
    box_of (np.eq_scalar img v) = ok b ∧
    torch.row (boxes t) i = Some (Z.of_nat <$> b).
Proof.
  intros (bs & Hbs & _ & Hboxes & _ & Hmasks & _)%target_of_ids_ok Hm.
  rewrite Hmasks in Hm. unfold torch.as_uint8, np.eq_broadcast in Hm.
  apply list_lookup_fmap_Some in Hm as (mb & -> & Hmb).
  pose proof Hmb as Hmb'.
  apply list_lookup_fmap_Some in Hmb' as (v & -> & Hv).
  apply traverse_ok_Forall2 in Hbs.
  destruct (Forall2_lookup_l _ _ _ _ _ Hbs Hmb) as (b & Hb & Hbox).
  exists v, b. repeat split; [done..|].
  rewrite Hboxes; simpl. by rewrite list_lookup_fmap, Hb.
Qed.

Lemma getitem_masks_length (idx : nat) (img : np.ndarray2 N) (t : target) :
  __getitem__ idx img = ok t → length (masks t) = length (obj_ids img).
Proof.
  intros (bs & _ & _ & _ & _ & -> & _)%target_of_ids_ok.
  unfold torch.as_uint8, np.eq_broadcast. by rewrite !length_fmap.
Qed.

(** Instance [i]'s mask marks exactly the pixels that hold the i-th id. *)
Lemma getitem_mask_iff (idx : nat) (img : np.ndarray2 N) (t : target)
    (i : nat) (m : list (list N)) :
  __getitem__ idx img = ok t →
  masks t !! i = Some m →
  ∃ v, obj_ids img !! i = Some v ∧
       ∀ r c, is_set m r c ↔ np.item img r c = Some v.
Proof.
  intros Hok Hm.
  destruct (getitem_instance _ _ _ _ _ Hok Hm) as (v & b & Hv & -> & _).
  exists v. split; [done|]. intros r c.
  by rewrite is_set_uint8, holds_true_eq_scalar.
Qed.

Lemma StronglySorted_lookup_lt {A} (R : A → A → Prop) (l : list A)
    (i j : nat) (x y : A) :
  StronglySorted R l → i < j → l !! i = Some x → l !! j = Some y → R x y.
Proof.
  intros Hs. revert i j. induction Hs as [|z l Hs IH Hall]; intros i j Hij Hi Hj.
  - done.
  - destruct j as [|j]; [lia|]. destruct i as [|i]; simpl in *.
    + injection Hi as ->. rewrite Forall_forall in Hall.
      by eapply Hall, list_elem_of_lookup_2.
    + apply (IH i j); [lia|done..].
Qed.

End instance_facts.

(** * Properties of the specification *)



(** C5.  Ordering: the instances of a returned target appear in strictly
    ascending order of their original label value, wherever the labels sit
    in the image.  The label value of an instance is the pixel value its
    mask marks: the value occurs in the image and the mask is set exactly at
    the pixels that hold it. *)
Theorem C5_ascending_labels (idx : nat) (img : np.ndarray2 N) (t : target)
    (i j : nat) (mi mj : list (list N)) :
  __getitem__ idx img = ok t →
  i < j →
  masks t !! i = Some mi →
  masks t !! j = Some mj →
  ∃ vi vj : N,
    (vi < vj)%N ∧
    (∃ r c, np.item img r c = Some vi) ∧
    (∀ r c, is_set mi r c ↔ np.item img r c = Some vi) ∧
    (∃ r c, np.item img r c = Some vj) ∧
    (∀ r c, is_set mj r c ↔ np.item img r c = Some vj).
Proof.
  intros Hok Hij Hmi Hmj.
  destruct (getitem_mask_iff _ _ _ _ _ Hok Hmi) as (vi & Hvi & Hi).
  destruct (getitem_mask_iff _ _ _ _ _ Hok Hmj) as (vj & Hvj & Hj).
  exists vi, vj. split; [|split; [|split; [done|split; [|done]]]].
  - exact (StronglySorted_lookup_lt _ _ _ _ _ _ (obj_ids_sorted img) Hij Hvi Hvj).
  - eapply obj_ids_present, list_elem_of_lookup_2, Hvi.
  - eapply obj_ids_present, list_elem_of_lookup_2, Hvj.
Qed.

Lemma C5_ascending_labels_witness :
  ∃ vi vj : N,
    (vi < vj)%N ∧
    (∃ r c, np.item scattered r c = Some vi) ∧
    (∀ r c, is_set [[0;0;0];[0;1;0]]%N r c ↔ np.item scattered r c = Some vi) ∧
    (∃ r c, np.item scattered r c = Some vj) ∧
    (∀ r c, is_set [[1;0;0];[0;0;0]]%N r c ↔ np.item scattered r c = Some vj).
Proof.
  eapply (C5_ascending_labels 0 scattered _ 0 2); [reflexivity|lia|reflexivity..].
Defined.

(** C10.  Cardinality and shape agreement: in a returned target, [boxes],
    [labels], [masks], [area] and [iscrowd] all have first dimension N, the
    number of enumerated instances, every box row has four entries, and every
    per-instance mask has the height and width of the label image. *)
Theorem C10_shapes_agree (idx : nat) (img : np.ndarray2 N) (t : target)
    (H W : nat) :
  __getitem__ idx img = ok t →
  np.has_shape H W img →
  torch.size0 (boxes t) = length (obj_ids img) ∧
  (∀ i b, torch.row (boxes t) i = Some b → length b = 4) ∧
  length (labels t) = length (obj_ids img) ∧
  length (masks t) = length (obj_ids img) ∧
  length (area t) = length (obj_ids img) ∧
  length (iscrowd t) = length (obj_ids img) ∧
  Forall (np.has_shape H W) (masks t).
Proof.
  intros Hok [Hrows Hcols].
  pose proof (getitem_masks_length _ _ _ Hok) as Hlen.
  pose proof Hok as (bs & Hbs & _ & Hboxes & Hlabels & Hmasks & _ & Hcrowd &
    b3 & b1 & b2 & b0 & H3 & H1 & H2 & H0 & Harea)%target_of_ids_ok.
  apply traverse_ok_Forall2 in Hbs.
  assert (length bs = length (obj_ids img)) as Hbslen.
  { apply Forall2_length in Hbs. unfold np.eq_broadcast in Hbs.
    by rewrite length_fmap in Hbs. }
  rewrite Hboxes in H3, H1, H2, H0.
  apply column_ok_Forall2, Forall2_length in H3, H1, H2, H0.
  rewrite length_fmap in H3, H1, H2, H0.
  split; [by rewrite Hboxes; simpl; rewrite length_fmap|].
  split.
  { intros i b. rewrite Hboxes; simpl.
    intros (b' & -> & Hb')%list_lookup_fmap_Some.
    destruct (Forall2_lookup_r _ _ _ _ _ Hbs Hb') as (m & _ & Hm).
    by apply box_of_ok in Hm as (? & ? & ? & ? & -> & _). }
  split; [by rewrite Hlabels; apply length_replicate|].
  split; [done|].
  split.
  { rewrite Harea. unfold torch.mul, torch.sub. rewrite !length_zip_with. lia. }
  split; [by rewrite Hcrowd; apply length_replicate|].
  apply Forall_lookup. intros i m Hm.
  destruct (getitem_instance _ _ _ _ _ Hok Hm) as (v & _ & _ & -> & _).
  unfold np.has_shape, np.eq_scalar. rewrite !length_fmap. split; [done|].
  rewrite <- list_fmap_compose. apply Forall_fmap.
  eapply Forall_impl; [exact Hcols|]. intros row Hrow; simpl.
  by rewrite !length_fmap.
Qed.

Lemma C10_shapes_agree_witness :
  ∃ t, __getitem__ 0 grid9 = ok t ∧
    torch.size0 (boxes t) = 2 ∧
    (∀ i b, torch.row (boxes t) i = Some b → length b = 4) ∧
    length (labels t) = 2 ∧
    length (masks t) = 2 ∧
    length (area t) = 2 ∧
    length (iscrowd t) = 2 ∧
    Forall (np.has_shape 3 3) (masks t).
Proof.
  eexists. split; [reflexivity|].
  apply (C10_shapes_agree 0 grid9 _ 3 3); [reflexivity|].
  split; [reflexivity|]. repeat constructor.
Defined.

(** ** Which label values are enumerated *)

Section enumeration_facts.

(** The enumerated ids are the values present in the image other than the
    smallest one. *)
Lemma elem_of_obj_ids (img : np.ndarray2 N) (v : N) :
  v ∈ obj_ids img ↔
  (∃ r c, np.item img r c = Some v) ∧
  ∃ u, (u < v)%N ∧ ∃ r c, np.item img r c = Some u.
Proof.
  setoid_rewrite <- item_elem_of. setoid_rewrite <- elem_of_unique.
  unfold obj_ids. destruct (unique_sorted img) as [|x l Hs Hall]; simpl.
  - split; [by intros ?%elem_of_nil|by intros [?%elem_of_nil _]].
  - rewrite Forall_forall in Hall. split.
    + intros Hv. split; [by right|]. exists x. split; [by apply Hall|by left].
    + intros [[->|Hv]%elem_of_cons (u & Hlt & [->|Hu]%elem_of_cons)]; try done.
      * lia.
      * specialize (Hall u Hu). lia.
Qed.

Lemma obj_ids_positive (img : np.ndarray2 N) : 0%N ∉ obj_ids img.
Proof. intros (_ & u & Hu & _)%elem_of_obj_ids. lia. Qed.

Lemma all_zero_obj_ids (img : np.ndarray2 N) :
  (∀ r c p, np.item img r c = Some p → p = 0%N) → obj_ids img = [].
Proof.
  intros Hzero. destruct (obj_ids img) as [|v ids] eqn:Hids; [done|].
  assert (v ∈ obj_ids img) as Hv by (rewrite Hids; by left).
  pose proof Hv as (r & c & Hrc)%obj_ids_present.
  apply Hzero in Hrc as ->. by apply obj_ids_positive in Hv.
Qed.

Lemma empty_grid_obj_ids (H W : nat) (img : np.ndarray2 N) :
  np.has_shape H W img → H = 0 ∨ W = 0 → obj_ids img = [].
Proof.
  intros [Hrows Hcols] Hempty. apply all_zero_obj_ids.
  intros r c p (row & Hr & Hc)%item_Some. exfalso.
  apply lookup_lt_Some in Hr as Hlt. apply lookup_lt_Some in Hc as Hlt'.
  rewrite Forall_lookup in Hcols. specialize (Hcols _ _ Hr). lia.
Qed.

End enumeration_facts.

(** C1.  The specification asks for one instance per distinct positive value,
    the smallest positive value included when the image has no 0 pixel.  The
    slice [obj_ids[1:]] drops the smallest value whatever it is: on the 1x2
    image [[1, 2]] the value 1 is present, no pixel is 0, and the only
    instance is the one of value 2; on the 1x1 image [[5]] no instance is
    left and the call raises. *)
Theorem C1_smallest_label_dropped (idx : nat) :
  np.unique [[1; 2]]%N = [1; 2]%N ∧
  obj_ids [[1; 2]]%N = [2%N] ∧
  __getitem__ idx [[1; 2]]%N =
    ok {| boxes := torch.Tensor2 [[1; 0; 1; 0]]%Z;
          labels := [1%Z];
          masks := [[[0; 1]]]%N;
          image_id := [Z.of_nat idx];
          area := [0%Z];
          iscrowd := [0%Z] |} ∧
  __getitem__ idx [[5]]%N = raise IndexError.
Proof. repeat split. Qed.

(** C2.  The specification asks for a zero-instance result on an all-zero
    image.  With no instance the Python list of boxes is empty, the tensor
    built from it is 1-D, and [boxes[:, 3]] raises [IndexError]. *)
Theorem C2_all_zero_raises (idx : nat) :
  __getitem__ idx [[0]]%N = raise IndexError ∧
  __getitem__ idx [[0; 0; 0]; [0; 0; 0]]%N = raise IndexError.
Proof. split; reflexivity. Qed.

(** C6 (as the code has it).  No input makes [__getitem__] fail with
    [EmptyLabelImageError]; a grid with zero rows or zero columns makes it
    raise [IndexError]. *)
Theorem C6_empty_grid_IndexError (idx : nat) (img : np.ndarray2 N) :
  __getitem__ idx img ≠ raise EmptyLabelImageError ∧
  ∀ H W, np.has_shape H W img → H = 0 ∨ W = 0 →
         __getitem__ idx img = raise IndexError.
Proof.
  split.
  - by destruct (getitem_cases idx img) as [[_ ->]|[_ [t ->]]].
  - intros H W Hshape Hempty.
    destruct (getitem_cases idx img) as [[_ ->]|[Hne _]]; [done|].
    by rewrite (empty_grid_obj_ids _ _ _ Hshape Hempty) in Hne.
Qed.

Lemma C6_empty_grid_IndexError_witness :
  np.has_shape 2 0 ([[]; []] : list (list N)) ∧
  __getitem__ 0 [[]; []] = raise IndexError.
Proof.
  assert (np.has_shape 2 0 ([[]; []] : list (list N))) as Hshape
    by (split; [reflexivity|repeat constructor]).
  split; [exact Hshape|].
  exact (proj2 (C6_empty_grid_IndexError 0 [[]; []]) 2 0 Hshape (or_intror eq_refl)).
Defined.

(** C6 as stated fails on the grid with zero rows (and three columns): the
    call does not fail with [EmptyLabelImageError] there. *)
Lemma C6_counterexample :
  np.has_shape 0 3 ([] : list (list N)) ∧
  ¬ (__getitem__ 0 [] = raise EmptyLabelImageError ↔ 0 = 0 ∨ 3 = 0).
Proof.
  split; [by split|]. intros [_ Hfail].
  specialize (Hfail (or_introl eq_refl)). discriminate Hfail.
Qed.

(** C7 (as the code has it).  When an id has no matching pixel, the box loop
    fails with numpy's [ValueError] ([np.min] of an empty index array).  With
    the ids scanned from the same image this never happens: every id gets a
    box and [__getitem__] fails neither with [ValueError] nor with
    [InconsistentLabelError]. *)
Theorem C7_missing_label_ValueError :
  (∀ idx (img : np.ndarray2 N) (ids : list N) (v : N),
     v ∈ ids → (∀ r c, np.item img r c ≠ Some v) →
     target_of_ids idx img ids = raise ValueError) ∧
  (∀ idx (img : np.ndarray2 N),
     (∀ v, v ∈ obj_ids img → ∃ b, box_of (np.eq_scalar img v) = ok b) ∧
     __getitem__ idx img ≠ raise ValueError ∧
     __getitem__ idx img ≠ raise InconsistentLabelError).
Proof.
  split.
  - intros idx img ids v Hv Habsent. unfold target_of_ids. cbv zeta.
    assert (box_of (np.eq_scalar img v) = raise ValueError) as Hbox.
    { apply box_of_empty. intros r c Hrc%holds_true_eq_scalar.
      by apply (Habsent r c). }
    destruct (traverse_stops box_of (np.eq_broadcast img ids) _ _
                (list_elem_of_fmap_2 _ _ _ Hv) Hbox) as [e He].
    rewrite He. cbn [bind].
    apply traverse_raises in He as (m & _ & ->%box_of_raises). done.
  - intros idx img. split; [|split].
    + intros v (r & c & Hrc)%obj_ids_present.
      apply (box_of_total _ r c). by apply holds_true_eq_scalar.
    + by destruct (getitem_cases idx img) as [[_ ->]|[_ [t ->]]].
    + by destruct (getitem_cases idx img) as [[_ ->]|[_ [t ->]]].
Qed.

Lemma absent_7 (r c : nat) : np.item [[0; 1]]%N r c ≠ Some 7%N.
Proof. by destruct r as [|[|r]], c as [|[|[|c]]]. Qed.

Lemma C7_missing_label_ValueError_witness :
  target_of_ids 0 [[0; 1]]%N [7%N] = raise ValueError.
Proof.
  apply (proj1 C7_missing_label_ValueError 0 [[0; 1]]%N [7%N] 7%N).
  - by left.
  - exact absent_7.
Defined.

(** C7 as stated fails for the id 7 on the grid [[0, 1]]: the id has no
    matching pixel and the failure is not [InconsistentLabelError]. *)
Lemma C7_counterexample :
  ¬ (7%N ∈ [7%N] → (∀ r c, np.item [[0; 1]]%N r c ≠ Some 7%N) →
     target_of_ids 0 [[0; 1]]%N [7%N] = raise InconsistentLabelError).
Proof.
  intros Hclaim.
  specialize (Hclaim (list_elem_of_here _ _) absent_7). discriminate Hclaim.
Qed.

(** C8.  The specification asks that every pixel holding a non-zero value
    belongs to exactly one instance's mask.  On the 1x2 image [[1, 2]] the
    pixel (0, 0) holds 1 and no mask of the returned target is set there,
    because the slice dropped the value 1. *)
Theorem C8_nonzero_pixel_in_no_mask (idx : nat) :
  ∃ t, __getitem__ idx [[1; 2]]%N = ok t ∧
       np.item [[1; 2]]%N 0 0 = Some 1%N ∧
       masks t = [[[0; 1]]]%N ∧
       ∀ m, m ∈ masks t → ¬ is_set m 0 0.
Proof.
  eexists. split; [reflexivity|]. split; [reflexivity|]. split; [reflexivity|].
  intros m ->%list_elem_of_singleton. discriminate.
Qed.

(** C9 (as the code has it).  On the 3x3 grid [[0,0,1],[0,1,1],[2,2,0]] the
    target has two instances: label 1 with mask set at (0,2), (1,1), (1,2),
    box (1,0,2,1) and area 1; label 2 with mask set at (2,0), (2,1), box
    (0,2,1,2) and area 0, the box being one row high. *)
Theorem C9_example_grid (idx : nat) :
  obj_ids grid9 = [1; 2]%N ∧
  __getitem__ idx grid9 =
    ok {| boxes := torch.Tensor2 [[1; 0; 2; 1]; [0; 2; 1; 2]]%Z;
          labels := [1; 1]%Z;
          masks := [[[0; 0; 1]; [0; 1; 1]; [0; 0; 0]];
                    [[0; 0; 0]; [0; 0; 0]; [1; 1; 0]]]%N;
          image_id := [Z.of_nat idx];
          area := [1; 0]%Z;
          iscrowd := [0; 0]%Z |}.
Proof. split; reflexivity. Qed.

(** C9 as stated fails: the area of the second instance is not 1. *)
Lemma C9_counterexample :
  ¬ ∃ t, __getitem__ 0 grid9 = ok t ∧
         torch.row (boxes t) 0 = Some [1; 0; 2; 1]%Z ∧ area t !! 0 = Some 1%Z ∧
         torch.row (boxes t) 1 = Some [0; 2; 1; 2]%Z ∧ area t !! 1 = Some 1%Z.
Proof.
  intros (t & [= <-] & _ & _ & _ & Harea). discriminate Harea.
Qed.

(** * Further properties of the code *)

(** X1.  Coverage when the image has a background pixel: every pixel that
    holds a non-zero value is set in exactly one instance's mask of the
    returned target. *)
Theorem X1_coverage_with_background (idx : nat) (img : np.ndarray2 N)
    (t : target) (r c : nat) (p : N) :
  __getitem__ idx img = ok t →
  (∃ r0 c0, np.item img r0 c0 = Some 0%N) →
  np.item img r c = Some p → p ≠ 0%N →
  ∃ i m, masks t !! i = Some m ∧ is_set m r c ∧
         ∀ j m', masks t !! j = Some m' → is_set m' r c → j = i.
Proof.
  intros Hok Hbg Hp Hne.
  assert (p ∈ obj_ids img) as (i & Hi)%list_elem_of_lookup.
  { apply elem_of_obj_ids. split; [eauto|]. exists 0%N. split; [lia|done]. }
  destruct (lookup_lt_is_Some_2 (masks t) i) as [m Hm].
  { rewrite (getitem_masks_length _ _ _ Hok). by eapply lookup_lt_Some. }
  exists i, m. split; [done|].
  destruct (getitem_mask_iff _ _ _ _ _ Hok Hm) as (v & Hv & Hiff).
  assert (v = p) as -> by congruence.
  split; [by apply Hiff|].
  intros j m' Hm' Hset.
  destruct (getitem_mask_iff _ _ _ _ _ Hok Hm') as (v' & Hv' & Hiff').
  apply Hiff' in Hset. assert (v' = p) as -> by congruence.
  pose proof (obj_ids_sorted img) as Hs.
  destruct (Nat.lt_trichotomy j i) as [Hlt|[->|Hlt]]; [|done|].
  - pose proof (StronglySorted_lookup_lt _ _ _ _ _ _ Hs Hlt Hv' Hi). lia.
  - pose proof (StronglySorted_lookup_lt _ _ _ _ _ _ Hs Hlt Hi Hv'). lia.
Qed.

Lemma X1_coverage_with_background_witness :
  ∃ t, __getitem__ 0 grid9 = ok t ∧
    ∃ i m, masks t !! i = Some m ∧ is_set m 2 1 ∧
           ∀ j m', masks t !! j = Some m' → is_set m' 2 1 → j = i.
Proof.
  eexists. split; [reflexivity|].
  apply (X1_coverage_with_background 0 grid9 _ 2 1 2%N).
  - reflexivity.
  - by exists 0, 0.
  - reflexivity.
  - done.
Defined.

(** X2.  The enumerated label values are the values present in the image
    other than the smallest one; 0 is never among them, and they are in
    strictly ascending order. *)
Theorem X2_enumerated_values (img : np.ndarray2 N) :
  (∀ v, v ∈ obj_ids img ↔
        (∃ r c, np.item img r c = Some v) ∧
        ∃ u, (u < v)%N ∧ ∃ r c, np.item img r c = Some u) ∧
  (0%N ∉ obj_ids img) ∧
  StronglySorted N.lt (obj_ids img).
Proof.
  split; [|split].
  - apply elem_of_obj_ids.
  - apply obj_ids_positive.
  - apply obj_ids_sorted.
Qed.

(** X3.  [__getitem__] returns a target exactly when the image holds at
    least two distinct values; otherwise it raises [IndexError].  In
    particular it raises on every image whose pixels are all 0. *)
Theorem X3_success_condition (idx : nat) (img : np.ndarray2 N) :
  ((∃ t, __getitem__ idx img = ok t) ↔
   ∃ u v r c r' c', (u < v)%N ∧ np.item img r c = Some u ∧
                    np.item img r' c' = Some v) ∧
  ((¬ ∃ t, __getitem__ idx img = ok t) → __getitem__ idx img = raise IndexError) ∧
  ((∀ r c p, np.item img r c = Some p → p = 0%N) →
   __getitem__ idx img = raise IndexError).
Proof.
  split; [|split].
  - split.
    + intros [t Ht].
      destruct (getitem_cases idx img) as [[_ Hraise]|[Hne _]]; [congruence|].
      destruct (obj_ids img) as [|v ids] eqn:Hids; [done|].
      assert (v ∈ obj_ids img) as Hv by (rewrite Hids; by left).
      apply elem_of_obj_ids in Hv as ((r' & c' & Hv) & u & Hlt & r & c & Hu).
      by exists u, v, r, c, r', c'.
    + intros (u & v & r & c & r' & c' & Hlt & Hu & Hv).
      destruct (getitem_cases idx img) as [[Hnil _]|[_ Hok]]; [|done].
      assert (v ∈ obj_ids img) as Hin by (apply elem_of_obj_ids; eauto 10).
      rewrite Hnil in Hin. by apply elem_of_nil in Hin.
  - intros Hno. by destruct (getitem_cases idx img) as [[_ ->]|[_ Hok]].
  - intros Hzero.
    destruct (getitem_cases idx img) as [[_ ->]|[Hne _]]; [done|].
    by rewrite (all_zero_obj_ids _ Hzero) in Hne.
Qed.

Lemma X3_success_condition_witness :
  __getitem__ 0 [[0; 0]; [0; 0]]%N = raise IndexError.
Proof.
  apply (proj2 (proj2 (X3_success_condition 0 [[0; 0]; [0; 0]]%N))).
  intros r c p.
  by destruct r as [|[|r]], c as [|[|c]]; simpl; intros [= <-].
Defined.

(** * Further properties of the returned target *)

Section target_facts.

(** Instance [i] of a returned target has a box that is tight around the set
    entries of its mask. *)
Lemma getitem_box_tight (idx : nat) (img : np.ndarray2 N) (t : target)
    (i : nat) (b : list Z) (m : list (list N)) :
  __getitem__ idx img = ok t →
  torch.row (boxes t) i = Some b →
  masks t !! i = Some m →
  ∃ xmin ymin xmax ymax : nat,
    b = [Z.of_nat xmin; Z.of_nat ymin; Z.of_nat xmax; Z.of_nat ymax] ∧
    (∀ r c, is_set m r c → xmin ≤ c ≤ xmax ∧ ymin ≤ r ≤ ymax) ∧
    (∃ r, is_set m r xmin) ∧ (∃ r, is_set m r xmax) ∧
    (∃ c, is_set m ymin c) ∧ (∃ c, is_set m ymax c).
Proof.
  intros Hok Hb Hm.
  destruct (getitem_instance _ _ _ _ _ Hok Hm) as (v & b' & _ & -> & Hbox & Hrow).
  rewrite Hrow in Hb. injection Hb as <-.
  apply box_of_ok in Hbox as (xmin & ymin & xmax & ymax & -> & Htight).
  exists xmin, ymin, xmax, ymax. split; [done|].
  setoid_rewrite is_set_uint8. exact Htight.
Qed.

Lemma item_in_shape {A} (H W : nat) (a : np.ndarray2 A) (r c : nat) (x : A) :
  np.has_shape H W a → np.item a r c = Some x → r < H ∧ c < W.
Proof.
  intros [Hrows Hcols] (row & Hr & Hc)%item_Some.
  rewrite Forall_lookup in Hcols. specialize (Hcols _ _ Hr).
  apply lookup_lt_Some in Hr, Hc. lia.
Qed.

Lemma getitem_rows_masks (idx : nat) (img : np.ndarray2 N) (t : target) (i : nat) :
  __getitem__ idx img = ok t →
  is_Some (torch.row (boxes t) i) ↔ is_Some (masks t !! i).
Proof.
  intros Hok.
  pose proof (getitem_masks_length _ _ _ Hok) as Hlen.
  pose proof Hok as (bs & Hbs & _ & Hboxes & _)%target_of_ids_ok.
  apply traverse_ok_Forall2, Forall2_length in Hbs.
  unfold np.eq_broadcast in Hbs. rewrite length_fmap in Hbs.
  rewrite Hboxes; simpl. rewrite !lookup_lt_is_Some, length_fmap. lia.
Qed.

(** The area entry of instance [i] is the float32 product of the float32
    sides of its box. *)
Lemma getitem_area (idx : nat) (img : np.ndarray2 N) (t : target)
    (i : nat) (xmin ymin xmax ymax : Z) :
  __getitem__ idx img = ok t →
  torch.row (boxes t) i = Some [xmin; ymin; xmax; ymax] →
  area t !! i
  = Some (torch.round_f32 (torch.round_f32 (ymax - ymin)
                           * torch.round_f32 (xmax - xmin)))%Z.
Proof.
  intros (bs & _ & _ & Hboxes & _ & _ & _ & _ & b3 & b1 & b2 & b0 &
          H3 & H1 & H2 & H0 & ->)%target_of_ids_ok Hrow.
  rewrite Hboxes in *. simpl in Hrow.
  apply column_ok_Forall2 in H3, H1, H2, H0.
  destruct (Forall2_lookup_l _ _ _ _ _ H3 Hrow) as (x3 & Hx3 & [= <-]).
  destruct (Forall2_lookup_l _ _ _ _ _ H1 Hrow) as (x1 & Hx1 & [= <-]).
  destruct (Forall2_lookup_l _ _ _ _ _ H2 Hrow) as (x2 & Hx2 & [= <-]).
  destruct (Forall2_lookup_l _ _ _ _ _ H0 Hrow) as (x0 & Hx0 & [= <-]).
  unfold torch.mul, torch.sub.
  by rewrite !lookup_zip_with, Hx3, Hx1, Hx2, Hx0.
Qed.

(** The sides of the box of instance [i] are not negative. *)
Lemma getitem_box_sides (idx : nat) (img : np.ndarray2 N) (t : target)
    (i : nat) (xmin ymin xmax ymax : Z) :
  __getitem__ idx img = ok t →
  torch.row (boxes t) i = Some [xmin; ymin; xmax; ymax] →
  (0 ≤ xmin ≤ xmax ∧ 0 ≤ ymin ≤ ymax)%Z.
Proof.
  intros Hok Hrow.
  destruct (proj1 (getitem_rows_masks idx img t i Hok)) as [m Hm]; [by eexists|].
  destruct (getitem_box_tight _ _ _ _ _ _ Hok Hrow Hm)
    as (x0 & y0 & x1 & y1 & [= -> -> -> ->] & Hin & [rx0 Hx0] & _ & [cy0 Hy0] & _).
  pose proof (Hin _ _ Hx0) as [? _]. pose proof (Hin _ _ Hy0) as [_ ?]. lia.
Qed.

End target_facts.

(** ** One instance that fills the image *)

Section corner_facts.

Context (h w : nat).

Lemma corner_shape : np.has_shape (S h) (S w) (corner_image h w).
Proof.
  unfold corner_image. split.
  - cbn [length]. by rewrite length_replicate.
  - constructor.
    + cbn [length]. by rewrite length_replicate.
    + apply Forall_replicate. by rewrite length_replicate.
Qed.

Lemma corner_item_values (r c : nat) (v : N) :
  np.item (corner_image h w) r c = Some v → v = 0%N ∨ v = 1%N.
Proof.
  intros (row & Hrow & Hv)%item_Some. unfold corner_image in Hrow.
  destruct r as [|r]; cbn [lookup list_lookup] in Hrow.
  - injection Hrow as <-. destruct c as [|c]; cbn [lookup list_lookup] in Hv.
    + left. congruence.
    + right. by apply lookup_replicate in Hv as [-> _].
  - apply lookup_replicate in Hrow as [-> _].
    right. by apply lookup_replicate in Hv as [-> _].
Qed.

Lemma corner_item_origin : np.item (corner_image h w) 0 0 = Some 0%N.
Proof. reflexivity. Qed.

Lemma corner_item_top_right : 1 ≤ w → np.item (corner_image h w) 0 w = Some 1%N.
Proof.
  intros Hw. apply item_Some. exists (0%N :: replicate w 1%N). split; [done|].
  destruct w as [|w']; [lia|]. cbn [lookup list_lookup].
  apply lookup_replicate_2. lia.
Qed.

Lemma corner_item_bottom_left : 1 ≤ h → np.item (corner_image h w) h 0 = Some 1%N.
Proof.
  intros Hh. apply item_Some. exists (replicate (S w) 1%N). split; [|done].
  unfold corner_image. destruct h as [|h']; [lia|]. cbn [lookup list_lookup].
  apply lookup_replicate_2. lia.
Qed.

(** The single instance of a corner image spans the whole image. *)
Lemma corner_box (idx : nat) :
  1 ≤ h → 1 ≤ w →
  ∃ t, __getitem__ idx (corner_image h w) = ok t ∧
       torch.row (boxes t) 0 = Some [0; 0; Z.of_nat w; Z.of_nat h]%Z.
Proof.
  intros Hh Hw.
  assert (1%N ∈ obj_ids (corner_image h w)) as Hone.
  { apply elem_of_obj_ids. split.
    - exists 0, w. by apply corner_item_top_right.
    - exists 0%N. split; [lia|]. exists 0, 0. apply corner_item_origin. }
  destruct (getitem_cases idx (corner_image h w)) as [[Hnil _]|[_ [t Ht]]].
  { rewrite Hnil in Hone. by apply elem_of_nil in Hone. }
  exists t. split; [done|].
  destruct (lookup_lt_is_Some_2 (masks t) 0) as [m Hm].
  { rewrite (getitem_masks_length _ _ _ Ht).
    destruct (obj_ids (corner_image h w)); [by apply elem_of_nil in Hone|].
    cbn [length]. lia. }
  destruct (proj2 (getitem_rows_masks idx _ t 0 Ht)) as [b Hb]; [by eexists|].
  destruct (getitem_box_tight _ _ _ _ _ _ Ht Hb Hm)
    as (x0 & y0 & x1 & y1 & -> & Hin & [rx0 Hx0] & [rx1 Hx1] &
        [cy0 Hy0] & [cy1 Hy1]).
  destruct (getitem_mask_iff _ _ _ _ _ Ht Hm) as (v & Hv & Hiff).
  assert (v = 1%N) as ->.
  { pose proof (list_elem_of_lookup_2 _ _ _ Hv) as Hin_ids.
    destruct (obj_ids_present _ _ Hin_ids) as (r & c & Hrc).
    destruct (corner_item_values _ _ _ Hrc) as [-> | ->]; [|done].
    by apply obj_ids_positive in Hin_ids. }
  pose proof (proj2 (Hiff _ _) (corner_item_top_right Hw)) as Htr.
  pose proof (proj2 (Hiff _ _) (corner_item_bottom_left Hh)) as Hbl.
  pose proof (item_in_shape _ _ _ _ _ _ corner_shape (proj1 (Hiff _ _) Hx1)).
  pose proof (item_in_shape _ _ _ _ _ _ corner_shape (proj1 (Hiff _ _) Hy1)).
  pose proof (Hin _ _ Htr). pose proof (Hin _ _ Hbl).
  rewrite Hb. do 2 f_equal; [|f_equal; [|f_equal]]; f_equal; lia.
Qed.

End corner_facts.

(** C4 (as the code has it).  For every instance of a returned target the
    area entry is the float32 product of the box sides xmax - xmin and
    ymax - ymin.  It equals (xmax - xmin) * (ymax - ymin) exactly whenever
    that product is at most 2^24, and whenever both sides are at most 2^24
    it is that product rounded to the nearest float32. *)
Theorem C4_area_float32 (idx : nat) (img : np.ndarray2 N) (t : target)
    (i : nat) (xmin ymin xmax ymax : Z) :
  __getitem__ idx img = ok t →
  torch.row (boxes t) i = Some [xmin; ymin; xmax; ymax] →
  (area t !! i
   = Some (torch.round_f32 (torch.round_f32 (ymax - ymin)
                            * torch.round_f32 (xmax - xmin))) ∧
   ((xmax - xmin) * (ymax - ymin) ≤ 2 ^ 24 →
    area t !! i = Some ((xmax - xmin) * (ymax - ymin))) ∧
   (xmax - xmin ≤ 2 ^ 24 → ymax - ymin ≤ 2 ^ 24 →
    area t !! i = Some (torch.round_f32 ((xmax - xmin) * (ymax - ymin)))))%Z.
Proof.
  intros Hok Hrow.
  pose proof (getitem_area _ _ _ _ _ _ _ _ Hok Hrow) as Harea.
  pose proof (getitem_box_sides _ _ _ _ _ _ _ _ Hok Hrow) as [Hx Hy].
  split; [done|]. rewrite Harea. split.
  - intros Hsmall. f_equal.
    destruct (decide (xmax - xmin = 0)%Z) as [Hx0|Hx0].
    { rewrite Hx0. cbn. by rewrite Z.mul_0_r. }
    destruct (decide (ymax - ymin = 0)%Z) as [Hy0|Hy0].
    { rewrite Hy0. cbn. by rewrite Z.mul_0_r. }
    rewrite (round_f32_exact (ymax - ymin)) by nia.
    rewrite (round_f32_exact (xmax - xmin)) by nia.
    rewrite round_f32_exact by nia. lia.
  - intros Hdx Hdy. do 2 f_equal.
    rewrite (round_f32_exact (ymax - ymin)) by lia.
    rewrite (round_f32_exact (xmax - xmin)) by lia. lia.
Qed.

Lemma C4_area_float32_witness :
  (area {| boxes := torch.Tensor2 [[1; 0; 2; 1]; [0; 2; 1; 2]]%Z;
           labels := [1; 1]%Z;
           masks := [[[0;0;1];[0;1;1];[0;0;0]]; [[0;0;0];[0;0;0];[1;1;0]]]%N;
           image_id := [0%Z];
           area := [1; 0]%Z;
           iscrowd := [0; 0]%Z |} !! 0%nat
   = Some ((2 - 1) * (1 - 0)))%Z.
Proof.
  pose proof (C4_area_float32 0 grid9 _ 0 1 0 2 1 eq_refl eq_refl)
    as (_ & Hexact & _).
  apply Hexact. cbn. lia.
Defined.

(** C4 as stated fails on the 4100 x 4098 image whose single instance fills
    it: the box is (0, 0, 4097, 4099), the exact product of its sides is
    16793603, and the area entry is the float32 value 16793604. *)
Lemma C4_counterexample :
  ∃ t, __getitem__ 0 (corner_image 4099 4097) = ok t ∧
       torch.row (boxes t) 0 = Some [0; 0; 4097; 4099]%Z ∧
       area t !! 0 = Some 16793604%Z ∧
       area t !! 0 ≠ Some ((4097 - 0) * (4099 - 0))%Z.
Proof.
  destruct (corner_box 4099 4097 0) as (t & Ht & Hrow); [lia..|].
  exists t. split; [exact Ht|]. split; [exact Hrow|].
  pose proof (getitem_area _ _ _ _ _ _ _ _ Ht Hrow) as Harea.
  assert (torch.round_f32 (torch.round_f32 (Z.of_nat 4099 - 0)
                           * torch.round_f32 (Z.of_nat 4097 - 0))
          = 16793604)%Z as Hround by reflexivity.
  rewrite Hround in Harea. split; [exact Harea|].
  rewrite Harea. discriminate.
Qed.



(** X5.  The masks of a returned target are binary, pairwise disjoint and
    non-empty, and no mask is set at a background (value 0) pixel. *)
Theorem X5_masks_binary_disjoint (idx : nat) (img : np.ndarray2 N) (t : target) :
  __getitem__ idx img = ok t →
  (∀ i m r c p, masks t !! i = Some m → np.item m r c = Some p →
                p = 0%N ∨ p = 1%N) ∧
  (∀ i j mi mj r c, masks t !! i = Some mi → masks t !! j = Some mj →
                    is_set mi r c → is_set mj r c → i = j) ∧
  (∀ i m r c, masks t !! i = Some m → np.item img r c = Some 0%N →
              ¬ is_set m r c) ∧
  (∀ i m, masks t !! i = Some m → ∃ r c, is_set m r c).
Proof.
  intros Hok. split; [|split; [|split]].
  - intros i m r c p Hm Hp.
    destruct (getitem_instance _ _ _ _ _ Hok Hm) as (v & _ & _ & -> & _).
    rewrite item_fmap in Hp.
    destruct (np.item (np.eq_scalar img v) r c) as [[]|]; simplify_eq/=; auto.
  - intros i j mi mj r c Hmi Hmj Hi Hj.
    destruct (getitem_mask_iff _ _ _ _ _ Hok Hmi) as (vi & Hvi & Hiffi).
    destruct (getitem_mask_iff _ _ _ _ _ Hok Hmj) as (vj & Hvj & Hiffj).
    apply Hiffi in Hi. apply Hiffj in Hj. assert (vi = vj) as -> by congruence.
    pose proof (obj_ids_sorted img) as Hs.
    destruct (Nat.lt_trichotomy i j) as [Hlt|[->|Hlt]]; [|done|].
    + pose proof (StronglySorted_lookup_lt _ _ _ _ _ _ Hs Hlt Hvi Hvj). lia.
    + pose proof (StronglySorted_lookup_lt _ _ _ _ _ _ Hs Hlt Hvj Hvi). lia.
  - intros i m r c Hm Hzero Hset.
    destruct (getitem_mask_iff _ _ _ _ _ Hok Hm) as (v & Hv & Hiff).
    apply Hiff in Hset. assert (v = 0%N) as -> by congruence.
    by eapply obj_ids_positive, list_elem_of_lookup_2.
  - intros i m Hm.
    destruct (getitem_mask_iff _ _ _ _ _ Hok Hm) as (v & Hv & Hiff).
    destruct (obj_ids_present img v) as (r & c & Hrc).
    { by eapply list_elem_of_lookup_2. }
    exists r, c. by apply Hiff.
Qed.

Lemma X5_masks_binary_disjoint_witness :
  ∃ t, __getitem__ 0 grid9 = ok t ∧
    (∀ i m r c p, masks t !! i = Some m → np.item m r c = Some p →
                  p = 0%N ∨ p = 1%N) ∧
    (∀ i j mi mj r c, masks t !! i = Some mi → masks t !! j = Some mj →
                      is_set mi r c → is_set mj r c → i = j) ∧
    (∀ i m r c, masks t !! i = Some m → np.item grid9 r c = Some 0%N →
                ¬ is_set m r c) ∧
    (∀ i m, masks t !! i = Some m → ∃ r c, is_set m r c).
Proof.
  eexists. split; [reflexivity|].
  apply (X5_masks_binary_disjoint 0 grid9). reflexivity.
Defined.

(** ** Relabelling *)

Section relabel_facts.

Context (f : N → N) (Hmono : ∀ a b, (a < b)%N → (f a < f b)%N).

Lemma relabel_compare (a b : N) : (f a ?= f b)%N = (a ?= b)%N.
Proof using Hmono.
  destruct (N.compare_spec a b) as [->|Hlt|Hgt].
  - apply N.compare_refl.
  - by apply N.compare_lt_iff, Hmono.
  - by apply N.compare_gt_iff, Hmono.
Qed.

Lemma relabel_eqb (a b : N) : (f a =? f b)%N = (a =? b)%N.
Proof using Hmono.
  pose proof (relabel_compare a b) as Hcmp.
  destruct (N.eqb_spec a b) as [->|Hne]; [apply N.eqb_refl|].
  apply N.eqb_neq. intros Heq. rewrite Heq, N.compare_refl in Hcmp.
  symmetry in Hcmp. by apply N.compare_eq_iff in Hcmp.
Qed.

Lemma relabel_sorted_insert (v : N) (l : list N) :
  np.sorted_insert (f v) (f <$> l) = f <$> np.sorted_insert v l.
Proof using Hmono.
  induction l as [|x l IH]; simpl; [done|].
  rewrite relabel_compare. destruct (v ?= x)%N; simpl; [done..|].
  f_equal. apply IH.
Qed.

Lemma concat_fmap_fmap {A B} (g : A → B) (a : list (list A)) :
  concat (fmap (M:=list) g <$> a) = g <$> concat a.
Proof.
  induction a as [|row a IH]; [done|].
  rewrite fmap_cons. cbn [concat]. by rewrite fmap_app, IH.
Qed.

Lemma relabel_unique (img : np.ndarray2 N) :
  np.unique (fmap (M:=list) f <$> img) = f <$> np.unique img.
Proof using Hmono.
  unfold np.unique. rewrite concat_fmap_fmap.
  induction (concat img) as [|x l IH]; [done|].
  rewrite fmap_cons. cbn [foldr]. rewrite IH. apply relabel_sorted_insert.
Qed.

Lemma relabel_obj_ids (img : np.ndarray2 N) :
  obj_ids (fmap (M:=list) f <$> img) = f <$> obj_ids img.
Proof using Hmono.
  unfold obj_ids. rewrite relabel_unique. by destruct (np.unique img).
Qed.

Lemma relabel_eq_broadcast (img : np.ndarray2 N) (ids : list N) :
  np.eq_broadcast (fmap (M:=list) f <$> img) (f <$> ids) = np.eq_broadcast img ids.
Proof using Hmono.
  unfold np.eq_broadcast. rewrite <- list_fmap_compose.
  apply list_fmap_ext. intros _ v _. simpl. unfold np.eq_scalar.
  rewrite <- list_fmap_compose. apply list_fmap_ext. intros _ row _. simpl.
  rewrite <- list_fmap_compose. apply list_fmap_ext. intros _ p _. simpl.
  apply relabel_eqb.
Qed.

End relabel_facts.

(** X6.  Only the order of the label values matters: renaming the pixel
    values by any strictly increasing map (labels need not be 1..N or
    contiguous) leaves the whole result of [__getitem__] unchanged, an
    exception included. *)
Theorem X6_relabel_invariant (f : N → N) (idx : nat) (img : np.ndarray2 N) :
  (∀ a b, (a < b)%N → (f a < f b)%N) →
  __getitem__ idx (fmap (M:=list) f <$> img) = __getitem__ idx img.
Proof.
  intros Hmono. unfold __getitem__, target_of_ids.
  rewrite (relabel_obj_ids f Hmono), (relabel_eq_broadcast f Hmono).
  by rewrite length_fmap.
Qed.

Lemma X6_relabel_invariant_witness :
  __getitem__ 0 [[0; 0; 10]; [0; 10; 10]; [20; 20; 0]]%N = __getitem__ 0 grid9.
Proof.
  apply (X6_relabel_invariant (λ v, 10 * v)%N 0 grid9). intros a b Hab. lia.
Defined.

(** * The train / test split *)

Section split_facts.

Context {S : Type} (dataset dataset_test : nat → result S).

Lemma split_app (indices : list nat) :
  Subset.indices (train_test_split dataset dataset_test indices).1 ++
  Subset.indices (train_test_split dataset dataset_test indices).2 = indices.
Proof. apply take_drop. Qed.

Lemma split_lengths (indices : list nat) :
  Subset.__len__ (train_test_split dataset dataset_test indices).1
    = length indices - 50 ∧
  Subset.__len__ (train_test_split dataset dataset_test indices).2
    = Nat.min 50 (length indices).
Proof.
  unfold Subset.__len__, train_test_split. cbn [fst snd Subset.indices].
  unfold py.slice_to_neg, py.slice_from_neg, py.neg_bound.
  rewrite length_take, length_drop. lia.
Qed.

Lemma randperm_NoDup (n : nat) (indices : list nat) :
  indices ≡ₚ seq 0 n → NoDup indices.
Proof. intros ->. apply NoDup_seq. Qed.

Lemma randperm_elem_of (n : nat) (indices : list nat) (i : nat) :
  indices ≡ₚ seq 0 n → i ∈ indices ↔ i < n.
Proof. intros ->. rewrite elem_of_seq. lia. Qed.

End split_facts.

(** X7.  The split neither leaks nor loses samples: when [indices] is a
    permutation of 0..n-1, the training indices followed by the test indices
    are [indices] itself, and every sample index below n is served by exactly
    one of the two subsets, at exactly one position. *)
Theorem X7_split_partitions {S : Type} (dataset dataset_test : nat → result S)
    (n : nat) (indices : list nat) (i : nat) :
  indices ≡ₚ seq 0 n →
  i < n →
  let train := (train_test_split dataset dataset_test indices).1 in
  let test := (train_test_split dataset dataset_test indices).2 in
  Subset.indices train ++ Subset.indices test = indices ∧
  ((∃ p, Subset.indices train !! p = Some i ∧ (i ∉ Subset.indices test) ∧
         ∀ q, Subset.indices train !! q = Some i → q = p) ∨
   (∃ p, Subset.indices test !! p = Some i ∧ (i ∉ Subset.indices train) ∧
         ∀ q, Subset.indices test !! q = Some i → q = p)).
Proof.
  intros Hperm Hi train test.
  pose proof (split_app dataset dataset_test indices) as Happ.
  fold train test in Happ. split; [done|].
  pose proof (randperm_NoDup _ _ Hperm) as Hnd.
  rewrite <- Happ in Hnd. apply NoDup_app in Hnd as (Hndtr & Hdisj & Hndte).
  assert (i ∈ Subset.indices train ++ Subset.indices test) as Hin.
  { rewrite Happ. by apply (randperm_elem_of n). }
  apply elem_of_app in Hin as [Hin|Hin].
  - left. pose proof Hin as (p & Hp)%list_elem_of_lookup.
    exists p. split; [done|]. split; [by apply Hdisj|].
    intros q Hq. exact (NoDup_lookup _ _ _ _ Hndtr Hq Hp).
  - right. pose proof Hin as (p & Hp)%list_elem_of_lookup.
    exists p. split; [done|]. split; [by intros ?%Hdisj|].
    intros q Hq. exact (NoDup_lookup _ _ _ _ Hndte Hq Hp).
Qed.

Lemma X7_split_partitions_witness :
  let train := (train_test_split (S:=nat) (λ j, ok j) (λ j, ok j) (seq 0 60)).1 in
  let test := (train_test_split (S:=nat) (λ j, ok j) (λ j, ok j) (seq 0 60)).2 in
  Subset.indices train ++ Subset.indices test = seq 0 60 ∧
  ((∃ p, Subset.indices train !! p = Some 7 ∧ (7 ∉ Subset.indices test) ∧
         ∀ q, Subset.indices train !! q = Some 7 → q = p) ∨
   (∃ p, Subset.indices test !! p = Some 7 ∧ (7 ∉ Subset.indices train) ∧
         ∀ q, Subset.indices test !! q = Some 7 → q = p)).
Proof.
  apply (X7_split_partitions (S:=nat) (λ j, ok j) (λ j, ok j) 60 (seq 0 60) 7);
    [reflexivity|lia].
Defined.

(** X8.  Sizes of the split: the test subset holds the last min(50, n)
    indices and the training subset the n - 50 before them, so with 50
    samples or fewer the training subset is empty, every index into it raises
    [IndexError], and the test subset is the whole of [indices]. *)
Theorem X8_split_sizes {S : Type} (dataset dataset_test : nat → result S)
    (indices : list nat) :
  let train := (train_test_split dataset dataset_test indices).1 in
  let test := (train_test_split dataset dataset_test indices).2 in
  Subset.__len__ train = length indices - 50 ∧
  Subset.__len__ test = Nat.min 50 (length indices) ∧
  (∀ p, Subset.__len__ train ≤ p → Subset.__getitem__ train p = raise IndexError) ∧
  (∀ p, p < Subset.__len__ test →
        ∃ j, indices !! (length indices - 50 + p) = Some j ∧
             Subset.__getitem__ test p = dataset_test j) ∧
  (length indices ≤ 50 →
   Subset.indices train = [] ∧ Subset.indices test = indices).
Proof.
  intros train test.
  destruct (split_lengths dataset dataset_test indices) as [Htr Hte].
  fold train test in Htr, Hte. split; [done|]. split; [done|].
  split; [|split].
  - intros p Hp. unfold Subset.__getitem__, py.index, Subset.__len__ in *.
    by rewrite (lookup_ge_None_2 _ _ Hp).
  - intros p Hp. unfold Subset.__getitem__, py.index, Subset.__len__ in *.
    subst train test. unfold train_test_split in *.
    cbn [fst snd Subset.indices Subset.dataset] in *.
    unfold py.slice_from_neg, py.neg_bound in *.
    rewrite lookup_drop.
    destruct (lookup_lt_is_Some_2 indices (length indices - 50 + p)) as [j Hj].
    { rewrite length_drop in Hp. lia. }
    exists j. by rewrite Hj.
  - intros Hsmall. subst train test. unfold train_test_split.
    cbn [fst snd Subset.indices].
    unfold py.slice_to_neg, py.slice_from_neg, py.neg_bound.
    by replace (length indices - 50) with 0 by lia.
Qed.

Lemma X8_split_sizes_witness :
  Subset.indices (train_test_split (S:=nat) (λ j, ok j) (λ j, ok j) [2; 0; 1]).1 = [] ∧
  Subset.indices (train_test_split (S:=nat) (λ j, ok j) (λ j, ok j) [2; 0; 1]).2
    = [2; 0; 1].
Proof.
  apply (X8_split_sizes (S:=nat) (λ j, ok j) (λ j, ok j) [2; 0; 1]).
  simpl. lia.
Defined.

(** * The files of the dataset *)

Section path_facts.

Lemma endswith_sep_app_sep (s : string) :
  os_path.endswith_sep (s +:+ "/") = true.
Proof.
  induction s as [|c s IH]; [done|].
  change (String c s +:+ "/") with (String c (s +:+ "/")).
  cbn [os_path.endswith_sep]. destruct (s +:+ "/") eqn:Hs; [|done].
  by destruct s.
Qed.

Lemma app_assoc_string (s1 s2 s3 : string) :
  (s1 +:+ s2) +:+ s3 = s1 +:+ (s2 +:+ s3).
Proof.
  induction s1 as [|c s1 IH]; [done|].
  change (String c ((s1 +:+ s2) +:+ s3) = String c (s1 +:+ (s2 +:+ s3))).
  by rewrite IH.
Qed.

(** A trailing separator on a non-empty root changes no joined path. *)
Lemma join_trailing_sep (root : string) (p : list string) :
  root ≠ EmptyString →
  os_path.endswith_sep root = false →
  p ≠ [] →
  os_path.join (root +:+ "/") p = os_path.join root p.
Proof.
  intros Hne Hend Hp. destruct p as [|b p]; [done|].
  unfold os_path.join; simpl. f_equal.
  unfold os_path.join_step. destruct (os_path.startswith_sep b); [done|].
  rewrite endswith_sep_app_sep, Hend, orb_true_r.
  destruct (String.eqb_spec root EmptyString) as [?|_]; [done|].
  cbn [orb]. by rewrite app_assoc_string.
Qed.

End path_facts.

Section order_facts.

Lemma compare_refl_string (s : string) : String.compare s s = Eq.
Proof.
  induction s as [|c s IH]; simpl; [done|].
  unfold Ascii.compare. by rewrite N.compare_refl.
Qed.

(** Between stems of one length, a common suffix does not change the
    comparison. *)
Lemma compare_app_same_length (a s s' : string) :
  String.length s = String.length s' →
  String.compare (s +:+ a) (s' +:+ a) = String.compare s s'.
Proof.
  revert s'. induction s as [|c s IH]; intros [|c' s'] Hlen; simplify_eq/=.
  - apply compare_refl_string.
  - change (String.compare (String c (s +:+ a)) (String c' (s' +:+ a))
            = String.compare (String c s) (String c' s')).
    cbn [String.compare]. destruct (Ascii.compare c c'); [by apply IH|done..].
Qed.

Lemma le_app_same_length (a s s' : string) :
  String.length s = String.length s' →
  String.le s s' → String.le (s +:+ a) (s' +:+ a).
Proof.
  intros Hlen. unfold String.le, String.leb.
  by rewrite compare_app_same_length.
Qed.

Lemma StronglySorted_fmap_on {A B} (R : relation A) (R' : relation B)
    (h : A → B) (l : list A) :
  (∀ x y, x ∈ l → y ∈ l → R x y → R' (h x) (h y)) →
  StronglySorted R l → StronglySorted R' (h <$> l).
Proof.
  intros Hmono Hs. induction Hs as [|x l Hs IH Hall]; [constructor|].
  rewrite fmap_cons. constructor.
  - apply IH. intros y z Hy Hz. apply Hmono; by right.
  - apply Forall_fmap, Forall_forall. intros y Hy. simpl.
    rewrite Forall_forall in Hall.
    apply Hmono; [by left|by right|by apply Hall].
Qed.

(** Sorting a listing that holds the stems with one suffix gives the sorted
    stems with that suffix. *)
Lemma sorted_suffixed (k : nat) (a : string) (stems listing : list string) :
  Forall (λ s, String.length s = k) stems →
  listing ≡ₚ (λ s, s +:+ a) <$> stems →
  PennFudanFiles.sorted listing
    = (λ s, s +:+ a) <$> PennFudanFiles.sorted stems.
Proof.
  intros Hlen Hperm. unfold PennFudanFiles.sorted.
  apply (Sorted_unique String.le).
  - apply (Sorted_merge_sort String.le).
  - apply StronglySorted_Sorted, (StronglySorted_fmap_on String.le).
    + intros x y Hx Hy. apply le_app_same_length.
      rewrite Forall_forall in Hlen.
      rewrite (Hlen x), (Hlen y); [done|..].
      * by rewrite <- (merge_sort_Permutation String.le stems).
      * by rewrite <- (merge_sort_Permutation String.le stems).
    + apply (StronglySorted_merge_sort String.le).
  - rewrite (merge_sort_Permutation String.le listing), Hperm.
    by rewrite (merge_sort_Permutation String.le stems).
Qed.

End order_facts.

Section files_facts.

Context (listdir : string → list string).

Lemma sorted_length (l : list string) : length (PennFudanFiles.sorted l) = length l.
Proof.
  unfold PennFudanFiles.sorted.
  by rewrite (merge_sort_Permutation String.le l).
Qed.

Lemma paths_ok (s : PennFudanFiles.self) (idx : nat) (i m : string) :
  PennFudanFiles.imgs s !! idx = Some i →
  PennFudanFiles.masks s !! idx = Some m →
  PennFudanFiles.paths s idx
    = ok (os_path.join (PennFudanFiles.root s) ["PNGImages"; i],
          os_path.join (PennFudanFiles.root s) ["PedMasks"; m]).
Proof.
  intros Hi Hm. unfold PennFudanFiles.paths, py.index. by rewrite Hi, Hm.
Qed.

Lemma paths_raises (s : PennFudanFiles.self) (idx : nat) :
  length (PennFudanFiles.imgs s) ≤ idx ∨ length (PennFudanFiles.masks s) ≤ idx →
  PennFudanFiles.paths s idx = raise IndexError.
Proof.
  intros Hout. unfold PennFudanFiles.paths, py.index.
  destruct (PennFudanFiles.imgs s !! idx) as [i|] eqn:Hi; [|done].
  destruct Hout as [Hout|Hout].
  - apply lookup_lt_Some in Hi. lia.
  - by rewrite (lookup_ge_None_2 _ _ Hout).
Qed.

End files_facts.

(** X9.  The length of the dataset is the number of entries of the
    PNGImages directory, whatever PedMasks holds.  For an index below that
    length the path lookup at the head of [__getitem__] raises [IndexError]
    exactly when PedMasks has no entry at that position, and [__getitem__] as
    a whole raises [IndexError] exactly when that happens or when the decoded
    mask leaves no label value after the smallest one is dropped.  An index
    at or past the length always raises [IndexError]. *)
Theorem X9_len_counts_images_only (listdir : string → list string)
    (root : string) (decode : string → np.ndarray2 N) (idx : nat) :
  let ds := PennFudanFiles.__init__ listdir root in
  PennFudanFiles.__len__ ds
    = length (listdir (os_path.join root ["PNGImages"])) ∧
  (idx < PennFudanFiles.__len__ ds →
   (PennFudanFiles.paths ds idx = raise IndexError ↔
    length (listdir (os_path.join root ["PedMasks"])) ≤ idx) ∧
   (PennFudanFiles.getitem decode ds idx = raise IndexError ↔
    length (listdir (os_path.join root ["PedMasks"])) ≤ idx ∨
    ∃ m, PennFudanFiles.masks ds !! idx = Some m ∧
         obj_ids (decode (os_path.join root ["PedMasks"; m])) = [])) ∧
  (PennFudanFiles.__len__ ds ≤ idx →
   PennFudanFiles.getitem decode ds idx = raise IndexError).
Proof.
  intros ds. unfold PennFudanFiles.__len__.
  assert (length (PennFudanFiles.imgs ds)
          = length (listdir (os_path.join root ["PNGImages"]))) as Himgs
    by apply sorted_length.
  assert (length (PennFudanFiles.masks ds)
          = length (listdir (os_path.join root ["PedMasks"]))) as Hmasks
    by apply sorted_length.
  split; [done|]. split.
  - intros Hidx. rewrite <- Hmasks.
    destruct (lookup_lt_is_Some_2 _ _ Hidx) as [i Hi].
    destruct (PennFudanFiles.masks ds !! idx) as [m|] eqn:Hm.
    + pose proof (lookup_lt_Some _ _ _ Hm) as Hlt.
      pose proof (paths_ok _ _ _ _ Hi Hm) as Hpaths. split.
      * rewrite Hpaths. split; [done|lia].
      * unfold PennFudanFiles.getitem. rewrite Hpaths. cbn [bind snd].
        change (PennFudanFiles.root ds) with root.
        destruct (getitem_cases idx (decode (os_path.join root ["PedMasks"; m])))
          as [[Hnil ->]|[Hne [t ->]]].
        -- split; [|done]. intros _. right. by exists m.
        -- split; [done|]. intros [?|(m' & [= <-] & ?)]; [lia|done].
    + pose proof (proj1 (lookup_ge_None _ _) Hm) as Hge.
      assert (PennFudanFiles.paths ds idx = raise IndexError) as Hpaths
        by (apply paths_raises; by right).
      split; [by rewrite Hpaths|].
      unfold PennFudanFiles.getitem. rewrite Hpaths. cbn [bind].
      split; [by left|done].
  - intros Hge. unfold PennFudanFiles.getitem.
    rewrite paths_raises; [done|]. by left.
Qed.

Lemma X9_len_counts_images_only_witness :
  PennFudanFiles.__len__ (PennFudanFiles.__init__ listdir_missing_mask "PennFudanPed") = 2 ∧
  PennFudanFiles.getitem (λ _, grid9)
    (PennFudanFiles.__init__ listdir_missing_mask "PennFudanPed") 1
  = raise IndexError.
Proof.
  pose proof (X9_len_counts_images_only listdir_missing_mask "PennFudanPed"
                (λ _, grid9) 1) as (Hlen & Hin & _).
  split; [exact Hlen|].
  apply Hin; [rewrite Hlen; simpl; lia|left; simpl; lia].
Defined.

(** X10.  Sorting aligns images and masks under the dataset's naming scheme
    when the stems have one length: if PNGImages holds [stem.png] and
    PedMasks holds [stem_mask.png] for the same stems, all of the same
    length, then every item pairs an image with the mask of the same stem,
    in whatever order the two directories are listed. *)
Theorem X10_sorted_listings_aligned (listdir : string → list string)
    (root : string) (decode : string → np.ndarray2 N) (k : nat)
    (stems : list string) (idx : nat) :
  Forall (λ s, String.length s = k) stems →
  listdir (os_path.join root ["PNGImages"]) ≡ₚ (λ s, s +:+ ".png") <$> stems →
  listdir (os_path.join root ["PedMasks"]) ≡ₚ (λ s, s +:+ "_mask.png") <$> stems →
  idx < length stems →
  ∃ s, s ∈ stems ∧
    PennFudanFiles.paths (PennFudanFiles.__init__ listdir root) idx
    = ok (os_path.join root ["PNGImages"; s +:+ ".png"],
          os_path.join root ["PedMasks"; s +:+ "_mask.png"]) ∧
    PennFudanFiles.getitem decode (PennFudanFiles.__init__ listdir root) idx
    = __getitem__ idx (decode (os_path.join root ["PedMasks"; s +:+ "_mask.png"])).
Proof.
  intros Hlen Himgs Hmasks Hidx.
  destruct (lookup_lt_is_Some_2 (PennFudanFiles.sorted stems) idx) as [s Hs].
  { by rewrite sorted_length. }
  exists s. split.
  { apply list_elem_of_lookup_2 in Hs. unfold PennFudanFiles.sorted in Hs.
    by rewrite (merge_sort_Permutation String.le stems) in Hs. }
  assert (PennFudanFiles.paths (PennFudanFiles.__init__ listdir root) idx
          = ok (os_path.join root ["PNGImages"; s +:+ ".png"],
                os_path.join root ["PedMasks"; s +:+ "_mask.png"])) as Hpaths.
  { apply paths_ok; unfold PennFudanFiles.__init__;
      cbn [PennFudanFiles.imgs PennFudanFiles.masks].
    - rewrite (sorted_suffixed k ".png" stems _ Hlen Himgs).
      by rewrite list_lookup_fmap, Hs.
    - rewrite (sorted_suffixed k "_mask.png" stems _ Hlen Hmasks).
      by rewrite list_lookup_fmap, Hs. }
  split; [done|]. unfold PennFudanFiles.getitem. by rewrite Hpaths.
Qed.

Lemma X10_sorted_listings_aligned_witness :
  ∃ s, s ∈ ["FudanPed00002"; "FudanPed00001"] ∧
    PennFudanFiles.paths (PennFudanFiles.__init__ listdir_two "PennFudanPed") 0
    = ok (os_path.join "PennFudanPed" ["PNGImages"; s +:+ ".png"],
          os_path.join "PennFudanPed" ["PedMasks"; s +:+ "_mask.png"]) ∧
    PennFudanFiles.getitem (λ _, grid9)
      (PennFudanFiles.__init__ listdir_two "PennFudanPed") 0
    = __getitem__ 0 grid9.
Proof.
  apply (X10_sorted_listings_aligned listdir_two "PennFudanPed" (λ _, grid9) 13
           ["FudanPed00002"; "FudanPed00001"] 0).
  - repeat constructor.
  - reflexivity.
  - apply perm_swap.
  - simpl. lia.
Defined.

(** X11.  Sorting alone does not align the two listings: with the stems
    [a] and [a0], named by the same scheme, item 0 pairs the image [a.png]
    with the mask of the other image, [a0_mask.png]. *)
Theorem X11_sorting_can_misalign :
  listdir_uneven (os_path.join "data" ["PNGImages"])
    = (λ s, s +:+ ".png") <$> ["a"; "a0"] ∧
  listdir_uneven (os_path.join "data" ["PedMasks"])
    = (λ s, s +:+ "_mask.png") <$> ["a"; "a0"] ∧
  PennFudanFiles.paths (PennFudanFiles.__init__ listdir_uneven "data") 0
    = ok ("data/PNGImages/a.png", "data/PedMasks/a0_mask.png").
Proof. repeat split. Qed.

(** X12.  A trailing separator on the root directory is immaterial: the
    dataset built from [root/] lists the same files and yields the same
    paths as the one built from [root], for a non-empty root that does not
    itself end with the separator. *)
Theorem X12_root_trailing_separator (listdir : string → list string)
    (root : string) (idx : nat) :
  root ≠ EmptyString →
  os_path.endswith_sep root = false →
  PennFudanFiles.imgs (PennFudanFiles.__init__ listdir (root +:+ "/"))
    = PennFudanFiles.imgs (PennFudanFiles.__init__ listdir root) ∧
  PennFudanFiles.masks (PennFudanFiles.__init__ listdir (root +:+ "/"))
    = PennFudanFiles.masks (PennFudanFiles.__init__ listdir root) ∧
  PennFudanFiles.paths (PennFudanFiles.__init__ listdir (root +:+ "/")) idx
    = PennFudanFiles.paths (PennFudanFiles.__init__ listdir root) idx.
Proof.
  intros Hne Hend.
  assert (∀ p, p ≠ [] → os_path.join (root +:+ "/") p = os_path.join root p)
    as Hjoin by (intros; by apply join_trailing_sep).
  unfold PennFudanFiles.__init__, PennFudanFiles.paths.
  cbn [PennFudanFiles.root PennFudanFiles.imgs PennFudanFiles.masks].
  rewrite !Hjoin by done. split; [done|]. split; [done|].
  unfold py.index.
  destruct (_ !! idx) as [i|]; cbn [bind]; [|done].
  destruct (_ !! idx) as [m|]; cbn [bind]; [|done].
  by rewrite !Hjoin.
Qed.

Lemma X12_root_trailing_separator_witness :
  PennFudanFiles.paths (PennFudanFiles.__init__ listdir_two "PennFudanPed/") 1
  = PennFudanFiles.paths (PennFudanFiles.__init__ listdir_two "PennFudanPed") 1.
Proof.
  apply (X12_root_trailing_separator listdir_two "PennFudanPed" 1); done.
Defined.

(** * The compositing cell *)

Section itraverse_facts.

Context {E A B : Type} (f : nat → A → E + B).

Lemma itraverse_ok_lookup (i : nat) (l : list A) (out : list B) :
  itraverse f i l = inr out →
  ∀ p a, l !! p = Some a → ∃ b, out !! p = Some b ∧ f (i + p) a = inr b.
Proof.
  revert i out. induction l as [|a0 l IH]; intros i out Hok p a Hp; [done|].
  cbn [itraverse] in Hok.
  destruct (f i a0) as [e|b0] eqn:Hf; [done|].
  destruct (itraverse f (S i) l) as [e|bs] eqn:Hl; [done|].
  injection Hok as <-. destruct p as [|p]; simpl in *.
  - injection Hp as <-. exists b0. by rewrite Nat.add_0_r.
  - destruct (IH _ _ Hl p a Hp) as (b & Hb & Hfb).
    exists b. split; [done|]. by replace (i + S p) with (S i + p) by lia.
Qed.

Lemma itraverse_ok_length (i : nat) (l : list A) (out : list B) :
  itraverse f i l = inr out → length out = length l.
Proof.
  revert i out. induction l as [|a0 l IH]; intros i out Hok.
  - by injection Hok as <-.
  - cbn [itraverse] in Hok.
    destruct (f i a0) as [e|b0]; [done|].
    destruct (itraverse f (S i) l) as [e|bs] eqn:Hl; [done|].
    injection Hok as <-. simpl. f_equal. by eapply IH.
Qed.

Lemma itraverse_total (i : nat) (l : list A) :
  (∀ p a, l !! p = Some a → ∃ b, f (i + p) a = inr b) →
  ∃ out, itraverse f i l = inr out.
Proof.
  revert i. induction l as [|a0 l IH]; intros i Hall; [by eexists|].
  cbn [itraverse].
  destruct (Hall 0 a0 eq_refl) as [b0 Hb0]. rewrite Nat.add_0_r in Hb0.
  rewrite Hb0. destruct (IH (S i)) as [bs ->]; [|by eexists].
  intros p a Hp. replace (S i + p) with (i + S p) by lia. by apply Hall.
Qed.

Lemma itraverse_raises (i : nat) (l : list A) (e : E) :
  itraverse f i l = inl e → ∃ p a, l !! p = Some a ∧ f (i + p) a = inl e.
Proof.
  revert i. induction l as [|a0 l IH]; intros i Hraise; [done|].
  cbn [itraverse] in Hraise.
  destruct (f i a0) as [e0|b0] eqn:Hf.
  - injection Hraise as ->. exists 0, a0. by rewrite Nat.add_0_r.
  - destruct (itraverse f (S i) l) as [e0|bs] eqn:Hl; [|done].
    injection Hraise as ->. destruct (IH _ Hl) as (p & a & Hp & Hfa).
    exists (S p), a. split; [done|]. by replace (i + S p) with (S i + p) by lia.
Qed.

End itraverse_facts.

Lemma itraverse_fmap {E A B C} (f : nat → A → E + B) (h' : B → C) (h : A → C)
    (i : nat) (l : list A) (out : list B) :
  itraverse f i l = inr out →
  (∀ p a b, l !! p = Some a → f (i + p) a = inr b → h' b = h a) →
  h' <$> out = h <$> l.
Proof.
  intros Hok Hh. apply list_eq. intros p. rewrite !list_lookup_fmap.
  destruct (l !! p) as [a|] eqn:Ha.
  - destruct (itraverse_ok_lookup f i l out Hok p a Ha) as (b & -> & Hb).
    simpl. f_equal. by eapply Hh.
  - apply lookup_ge_None in Ha.
    rewrite <- (itraverse_ok_length f i l out Hok) in Ha.
    by rewrite (lookup_ge_None_2 _ _ Ha).
Qed.

Section array_facts.

Lemma zip_with3_diag {A C D} (f : A → A → C → D) (l : list A) (k : list C) :
  cv.zip_with3 f l l k = zip_with (λ a c, f a a c) l k.
Proof.
  unfold cv.zip_with3. revert k.
  induction l as [|a l IH]; intros [|c k]; simpl; [done..|]. by rewrite IH.
Qed.

Lemma and_pixel_self (px : list N) (m : N) :
  cv.and_pixel px px m = (λ v, if N.eqb m 0 then 0%N else v) <$> px.
Proof.
  unfold cv.and_pixel. destruct (N.eqb m 0); [done|].
  rewrite zip_with_diag. apply list_fmap_ext. intros _ v _. apply N.land_diag.
Qed.

Lemma bitwise_and_self (img : cv.image) (mask : cv.gray) :
  cv.bitwise_and img img mask =
    if bool_decide (length <$> img = length <$> mask)
    then inr (keep_where img mask) else inl Cv2Error.
Proof.
  unfold cv.bitwise_and. rewrite bool_decide_eq_true_2 by done.
  cbn [andb]. case_bool_decide; [|done]. f_equal.
  rewrite zip_with3_diag. unfold keep_where.
  apply zip_with_ext; [|done..]. intros row mrow.
  rewrite zip_with3_diag. apply zip_with_ext; [|done..].
  intros px m. apply and_pixel_self.
Qed.

Lemma item_zip_with {A B C} (h : A → B → C) (a : list (list A))
    (b : list (list B)) (i j : nat) :
  np.item (zip_with (zip_with h) a b) i j
  = np.item a i j ≫= λ x, np.item b i j ≫= λ y, Some (h x y).
Proof.
  unfold np.item. rewrite lookup_zip_with.
  destruct (a !! i) as [ra|]; simpl; [|done].
  destruct (b !! i) as [rb|]; simpl.
  - by rewrite lookup_zip_with.
  - by destruct (ra !! j).
Qed.

Lemma zip_with_row_lengths {A B C} (h : A → B → C) (a : list (list A))
    (b : list (list B)) :
  length <$> a = length <$> b →
  length <$> zip_with (zip_with h) a b = length <$> a.
Proof.
  revert b. induction a as [|ra a IH]; intros [|rb b] Hlen; simplify_eq/=; [done|].
  rewrite IH by done. f_equal. rewrite length_zip_with. lia.
Qed.

End array_facts.

Section cell_facts.

Lemma black_zeros (px : list N) : black ((λ _, 0%N) <$> px) = true.
Proof. induction px as [|c px IH]; simpl; [done|]. exact IH. Qed.

Lemma black_lookup (px : list N) (k : nat) (v : N) :
  black px = true → px !! k = Some v → v = 0%N.
Proof.
  revert k. induction px as [|c px IH]; intros k; simpl; [done|].
  intros [->%N.eqb_eq Hpx]%andb_true_iff. destruct k as [|k]; simpl.
  - by intros [= <-].
  - by apply IH.
Qed.

Lemma black_fmap_ext (h : N → N) (px : list N) :
  (∀ v, h v = v) → black (h <$> px) = black px.
Proof.
  intros Hh. induction px as [|c px IH]; simpl; [done|].
  rewrite Hh. f_equal. exact IH.
Qed.

(** The mask produced by [inRange] from the first conjunction, used in the
    second one, blanks exactly the pixels where [res] is non-zero. *)
Lemma keep_where_in_range_pixel (px : list N) (m : N) :
  let px1 := (λ v, if N.eqb m 0 then 0%N else v) <$> px in
  let m1 := if black px1 then 255%N else 0%N in
  (λ v, if N.eqb m1 0 then 0%N else v) <$> px
  = (λ v, if N.eqb m 0 then v else 0%N) <$> px.
Proof.
  intros px1 m1. subst px1 m1. apply list_fmap_ext. intros k v Hv.
  destruct (N.eqb m 0) eqn:Hm.
  - by rewrite black_zeros.
  - rewrite black_fmap_ext by done.
    destruct (black px) eqn:Hblack; simpl; [|done].
    by apply (black_lookup px k).
Qed.

Lemma zero_mask_item (a : cv.image) (i j : nat) :
  np.item (zero_mask a) i j
  = (λ px, if black px then 255%N else 0%N) <$> np.item a i j.
Proof. unfold zero_mask. apply item_fmap. Qed.

Lemma zero_mask_row_lengths (a : cv.image) :
  length <$> zero_mask a = length <$> a.
Proof.
  unfold zero_mask. rewrite <- list_fmap_compose.
  apply list_fmap_ext. intros _ row _. simpl. apply length_fmap.
Qed.

(** The image the loop starts from. *)
Lemma masked_item (img : cv.image) (res : cv.gray) (i j : nat) :
  np.item (keep_where img (zero_mask (keep_where img res))) i j
  = match np.item img i j, np.item res i j with
    | Some px, Some m =>
        Some (fmap (M:=list) (λ v, if N.eqb m 0 then v else 0%N) px)
    | _, _ => None
    end.
Proof.
  unfold keep_where at 1. rewrite item_zip_with, zero_mask_item.
  unfold keep_where. rewrite item_zip_with.
  destruct (np.item img i j) as [px|]; simpl; [|done].
  destruct (np.item res i j) as [m|]; simpl; [|done].
  f_equal. apply keep_where_in_range_pixel.
Qed.

(** [inRange] with all bounds 0 on one pixel. *)
Lemma in_range_pixel_zero (px : list N) (b : N) :
  cv.in_range_pixel (0, 0, 0)%N (0, 0, 0)%N px = inr b ↔
  length px = 3 ∧ b = if black px then 255%N else 0%N.
Proof.
  destruct px as [|c0 [|c1 [|c2 [|c3 px]]]]; cbn;
    try (split; [done|intros [Hlen _]; by cbn in Hlen]).
  split.
  - intros [= <-]. split; [done|]. by destruct c0, c1, c2.
  - intros [_ ->]. f_equal. by destruct c0, c1, c2.
Qed.

Lemma in_range_pixel_raises (px : list N) (e : cell_exn) :
  cv.in_range_pixel (0, 0, 0)%N (0, 0, 0)%N px = inl e → e = Cv2Error.
Proof.
  destruct px as [|c0 [|c1 [|c2 [|c3 px]]]]; cbn; by intros [=].
Qed.

(** [inRange] with all bounds 0 finishes exactly on a source that has pixels,
    all of three channels, and then marks the black pixels. *)
Lemma in_range_zero (a : cv.image) :
  cv.inRange a (0, 0, 0)%N (0, 0, 0)%N =
    if bool_decide (concat a = []) then inl Cv2Error
    else if bool_decide (three_channel a) then inr (zero_mask a)
    else inl Cv2Error.
Proof.
  unfold cv.inRange. case_bool_decide as Hempty; [done|].
  destruct (itraverse _ 0 a) as [e|g] eqn:Hres.
  - apply itraverse_raises in Hres as (i & row & Hrow & Hr).
    apply itraverse_raises in Hr as (j & px & Hpx & Hp).
    simpl in Hp. pose proof (in_range_pixel_raises _ _ Hp) as ->.
    rewrite bool_decide_eq_false_2; [done|]. intros Hthree.
    unfold three_channel in Hthree. rewrite Forall_lookup in Hthree.
    specialize (Hthree _ _ Hrow). rewrite Forall_lookup in Hthree.
    specialize (Hthree _ _ Hpx).
    rewrite (proj2 (in_range_pixel_zero px _) (conj Hthree eq_refl)) in Hp.
    discriminate Hp.
  - assert (three_channel a) as Hthree.
    { apply Forall_lookup. intros i row Hrow.
      destruct (itraverse_ok_lookup _ _ _ _ Hres i row Hrow) as (grow & _ & Hr).
      apply Forall_lookup. intros j px Hpx.
      destruct (itraverse_ok_lookup _ _ _ _ Hr j px Hpx) as (b & _ & Hb).
      by apply in_range_pixel_zero in Hb as [? _]. }
    rewrite bool_decide_eq_true_2 by done. f_equal. unfold zero_mask.
    rewrite <- (list_fmap_id g).
    eapply itraverse_fmap; [exact Hres|]. intros i row grow _ Hr. simpl in Hr.
    rewrite <- (list_fmap_id grow).
    eapply itraverse_fmap; [exact Hr|]. intros j px b _ Hb.
    by apply in_range_pixel_zero in Hb as [_ ->].
Qed.

End cell_facts.

Section fill_facts.

Lemma item3_item (a : cv.image) (i j k : nat) :
  item3 a i j k = match np.item a i j with
                  | Some px => px !! k
                  | None => None
                  end.
Proof.
  unfold item3, np.item. destruct (a !! i) as [row|]; simpl; [|done].
  by destruct (row !! j).
Qed.

Lemma item3_Some (a : cv.image) (i j k : nat) (v : N) :
  item3 a i j k = Some v ↔
  ∃ row px, a !! i = Some row ∧ row !! j = Some px ∧ px !! k = Some v.
Proof.
  unfold item3. split.
  - destruct (a !! i) as [row|]; simpl; [|done].
    destruct (row !! j) as [px|] eqn:Hpx; simpl; [|done].
    intros Hv. by exists row, px.
  - intros (row & px & -> & Hpx & Hv). simpl. by rewrite Hpx.
Qed.

(** What the loop leaves at a position. *)
Lemma fill_zeros_item (a b out : cv.image) (i j k : nat) (v : N) :
  fill_zeros a b = inr out →
  item3 a i j k = Some v →
  (v ≠ 0%N → item3 out i j k = Some v) ∧
  (v = 0%N → ∃ w, item3 b i j k = Some w ∧ item3 out i j k = Some w).
Proof.
  intros Hok (row & px & Hrow & Hpx & Hv)%item3_Some.
  unfold fill_zeros in Hok.
  destruct (itraverse_ok_lookup _ _ _ _ Hok i row Hrow) as (orow & Horow & Hr).
  destruct (itraverse_ok_lookup _ _ _ _ Hr j px Hpx) as (opx & Hopx & Hp).
  destruct (itraverse_ok_lookup _ _ _ _ Hp k v Hv) as (w & Hw & Hf).
  simpl in Hf.
  assert (item3 out i j k = Some w) as Hout.
  { apply item3_Some. by exists orow, opx. }
  destruct (N.eqb_spec v 0) as [->|Hne].
  - split; [done|]. intros _. exists w.
    destruct (item3 b i j k) as [w'|]; [|done]. by injection Hf as ->.
  - split; [|done]. intros _. by injection Hf as <-.
Qed.

Lemma fill_zeros_shape (a b out : cv.image) :
  fill_zeros a b = inr out → shape3 out = shape3 a.
Proof.
  intros Hok. unfold shape3, fill_zeros in *.
  eapply itraverse_fmap; [exact Hok|]. intros i row orow _ Hr. simpl in Hr.
  eapply itraverse_fmap; [exact Hr|]. intros j px opx _ Hp. simpl in Hp.
  by eapply itraverse_ok_length.
Qed.

Lemma fill_zeros_total (a b : cv.image) :
  (∀ i j k, item3 a i j k = Some 0%N → is_Some (item3 b i j k)) →
  ∃ out, fill_zeros a b = inr out.
Proof.
  intros Hin. unfold fill_zeros.
  apply itraverse_total. intros i row Hrow. simpl.
  apply itraverse_total. intros j px Hpx. simpl.
  apply itraverse_total. intros k v Hv. simpl.
  destruct (N.eqb_spec v 0) as [->|Hne]; [|by eexists].
  destruct (Hin i j k) as [w ->]; [|by eexists].
  apply item3_Some. by exists row, px.
Qed.

Lemma fill_zeros_raises (a b : cv.image) (e : cell_exn) :
  fill_zeros a b = inl e →
  e = CellIndexError ∧
  ∃ i j k, item3 a i j k = Some 0%N ∧ item3 b i j k = None.
Proof.
  unfold fill_zeros.
  intros (i & row & Hrow & Hr)%itraverse_raises. simpl in Hr.
  apply itraverse_raises in Hr as (j & px & Hpx & Hp). simpl in Hp.
  apply itraverse_raises in Hp as (k & v & Hv & Hf). simpl in Hf.
  destruct (N.eqb_spec v 0) as [->|Hne]; [|done].
  destruct (item3 b i j k) as [w|] eqn:Hb; [done|].
  injection Hf as <-. split; [done|]. exists i, j, k. split; [|done].
  apply item3_Some. by exists row, px.
Qed.

End fill_facts.

Section shape_facts.

Lemma shape3_item3 (a b : cv.image) (i j k : nat) :
  shape3 a = shape3 b → is_Some (item3 a i j k) → is_Some (item3 b i j k).
Proof.
  unfold shape3. intros Hshape [v (ra & pa & Hra & Hpa & Hv)%item3_Some].
  assert ((fmap (M:=list) length <$> b) !! i = Some (length <$> ra)) as Hb.
  { by rewrite <- Hshape, list_lookup_fmap, Hra. }
  apply list_lookup_fmap_Some in Hb as (rb & Hlen & Hrb).
  assert ((length <$> rb) !! j = Some (length pa)) as Hpb.
  { by rewrite <- Hlen, list_lookup_fmap, Hpa. }
  apply list_lookup_fmap_Some in Hpb as (pb & Hlenp & Hpb).
  destruct (lookup_lt_is_Some_2 pb k) as [w Hw].
  { rewrite <- Hlenp. by eapply lookup_lt_Some. }
  exists w. apply item3_Some. by exists rb, pb.
Qed.

Lemma image_ext (a b : cv.image) :
  shape3 a = shape3 b →
  (∀ i j k v, item3 a i j k = Some v → item3 b i j k = Some v) →
  a = b.
Proof.
  intros Hshape Hitems. apply list_eq. intros i.
  assert ((fmap (M:=list) length <$> a) !! i = (fmap (M:=list) length <$> b) !! i)
    as Hi by (by unfold shape3 in Hshape; rewrite Hshape).
  rewrite !list_lookup_fmap in Hi.
  destruct (a !! i) as [ra|] eqn:Hra, (b !! i) as [rb|] eqn:Hrb;
    simplify_eq/=; [|done]. f_equal.
  apply list_eq. intros j.
  assert ((length <$> ra) !! j = (length <$> rb) !! j) as Hj by (by rewrite Hi).
  rewrite !list_lookup_fmap in Hj.
  destruct (ra !! j) as [pa|] eqn:Hpa, (rb !! j) as [pb|] eqn:Hpb;
    simplify_eq/=; [|done]. f_equal.
  apply list_eq. intros k.
  destruct (pa !! k) as [v|] eqn:Hv.
  - assert (item3 b i j k = Some v) as (rb' & pb' & ? & ? & ?)%item3_Some.
    { apply Hitems, item3_Some. by exists ra, pa. }
    by simplify_eq.
  - apply lookup_ge_None in Hv. symmetry. apply lookup_ge_None. lia.
Qed.

Lemma zip_with_shape3 {B} (h : list N → B → list N) (a : cv.image)
    (b : list (list B)) :
  (∀ x y, length (h x y) = length x) →
  length <$> a = length <$> b →
  shape3 (zip_with (zip_with h) a b) = shape3 a.
Proof.
  intros Hh. unfold shape3. revert b.
  induction a as [|ra a IH]; intros [|rb b] Hlen; simplify_eq/=; [done|].
  rewrite IH by done. f_equal.
  clear IH. revert rb H. induction ra as [|x ra IH]; intros [|y rb] Hlen;
    simplify_eq/=; [done|].
  rewrite Hh. f_equal. by apply IH.
Qed.

Lemma row_lengths_item {A B} (a : list (list A)) (b : list (list B)) (i j : nat) :
  length <$> a = length <$> b → is_Some (np.item a i j) → is_Some (np.item b i j).
Proof.
  intros Hlen [x (ra & Hra & Hx)%item_Some].
  assert ((length <$> b) !! i = Some (length ra)) as Hb.
  { by rewrite <- Hlen, list_lookup_fmap, Hra. }
  apply list_lookup_fmap_Some in Hb as (rb & Hlenr & Hrb).
  destruct (lookup_lt_is_Some_2 rb j) as [y Hy].
  { rewrite <- Hlenr. by eapply lookup_lt_Some. }
  exists y. apply item_Some. by exists rb.
Qed.

End shape_facts.

Section paste_facts.

Lemma three_channel_shape3 (a b : cv.image) :
  shape3 a = shape3 b → three_channel a → three_channel b.
Proof.
  assert (∀ c, three_channel c ↔ Forall (Forall (λ n, n = 3)) (shape3 c)) as Halt.
  { intros c. unfold three_channel, shape3. rewrite Forall_fmap.
    split; intros Hc; eapply Forall_impl; try exact Hc; intros row Hrow; simpl in *.
    - by apply Forall_fmap.
    - by apply Forall_fmap in Hrow. }
  intros Hshape. by rewrite !Halt, Hshape.
Qed.

Lemma concat_nil_shape3 (a b : cv.image) :
  shape3 a = shape3 b → concat a = [] → concat b = [].
Proof.
  assert (∀ c, concat c = [] ↔ concat (shape3 c) = []) as Halt.
  { intros c. unfold shape3. induction c as [|row c IH]; [done|].
    rewrite fmap_cons. cbn [concat]. destruct row as [|px row]; [exact IH|].
    split; intros [=]. }
  intros Hshape. by rewrite !Halt, Hshape.
Qed.

Lemma keep_where_shape3 (img : cv.image) (mask : cv.gray) :
  length <$> img = length <$> mask → shape3 (keep_where img mask) = shape3 img.
Proof.
  intros Hsize. unfold keep_where. apply zip_with_shape3; [|done].
  intros px m. apply length_fmap.
Qed.

(** The entry of the image the loop starts from. *)
Lemma masked_item3 (img : cv.image) (res : cv.gray) (i j k : nat) (v m : N) :
  item3 img i j k = Some v →
  np.item res i j = Some m →
  item3 (keep_where img (zero_mask (keep_where img res))) i j k
  = Some (if N.eqb m 0 then v else 0%N).
Proof.
  rewrite !item3_item, masked_item. intros Hv ->.
  destruct (np.item img i j) as [px|]; [|done].
  by rewrite list_lookup_fmap, Hv.
Qed.

Lemma masked_shape3 (img : cv.image) (res : cv.gray) :
  length <$> img = length <$> res →
  shape3 (keep_where img (zero_mask (keep_where img res))) = shape3 img.
Proof.
  intros Hsize. apply keep_where_shape3.
  rewrite zero_mask_row_lengths. unfold keep_where.
  by rewrite zip_with_row_lengths.
Qed.

(** The cell raises [cv2.error] on a mask of another size, on a photo
    without pixels and on a photo whose pixels do not have three channels;
    otherwise it is the loop run on the photo blanked where [res] is
    non-zero. *)
Lemma paste_background_eq (img : cv.image) (res : cv.gray) (img3 : cv.image) :
  paste_background img res img3 =
    if bool_decide (length <$> img = length <$> res)
    then if bool_decide (concat img = []) then inl Cv2Error
         else if bool_decide (three_channel img)
              then fill_zeros (keep_where img (zero_mask (keep_where img res))) img3
              else inl Cv2Error
    else inl Cv2Error.
Proof.
  unfold paste_background. cbv zeta. rewrite bitwise_and_self.
  case_bool_decide as Hsize; [|done].
  pose proof (keep_where_shape3 img res Hsize) as Hshape.
  rewrite in_range_zero.
  case_bool_decide as Hempty.
  { rewrite bool_decide_eq_true_2; [done|]. by eapply concat_nil_shape3. }
  rewrite (bool_decide_eq_false_2 (concat img = []));
    [|intros Hnil; apply Hempty; by eapply concat_nil_shape3].
  case_bool_decide as Hthree.
  - rewrite (bool_decide_eq_true_2 (three_channel img));
      [|by eapply three_channel_shape3].
    rewrite bitwise_and_self, bool_decide_eq_true_2; [done|].
    rewrite zero_mask_row_lengths. unfold keep_where.
    by rewrite zip_with_row_lengths.
  - rewrite (bool_decide_eq_false_2 (three_channel img)); [done|].
    intros Hthree'. apply Hthree. by eapply three_channel_shape3.
Qed.

End paste_facts.

Section paste_results.

Lemma paste_background_item (img : cv.image) (res : cv.gray)
    (img3 out : cv.image) (i j k : nat) (v : N) :
  paste_background img res img3 = inr out →
  item3 img i j k = Some v →
  ∃ m, np.item res i j = Some m ∧
    (m = 0%N → v ≠ 0%N → item3 out i j k = Some v) ∧
    (m ≠ 0%N ∨ v = 0%N →
     ∃ w, item3 img3 i j k = Some w ∧ item3 out i j k = Some w).
Proof.
  rewrite paste_background_eq. case_bool_decide as Hsize; [|done].
  case_bool_decide as Hempty; [done|]. case_bool_decide as Hthree; [|done].
  intros Hfill Hv.
  destruct (row_lengths_item img res i j Hsize) as [m Hm].
  { rewrite item3_item in Hv. by destruct (np.item img i j). }
  exists m. split; [done|].
  pose proof (masked_item3 _ _ _ _ _ _ _ Hv Hm) as Hmasked.
  destruct (fill_zeros_item _ _ _ _ _ _ _ Hfill Hmasked) as [Hkeep Hpaste].
  split.
  - intros -> Hne. by apply Hkeep.
  - intros [Hm0 | ->]; apply Hpaste.
    + apply N.eqb_neq in Hm0. by rewrite Hm0.
    + by destruct (N.eqb m 0).
Qed.

Lemma paste_background_finishes (img : cv.image) (res : cv.gray)
    (img3 : cv.image) :
  length <$> img = length <$> res →
  concat img ≠ [] →
  three_channel img →
  shape3 img3 = shape3 img →
  ∃ out, paste_background img res img3 = inr out ∧ shape3 out = shape3 img.
Proof.
  rewrite paste_background_eq.
  intros Hsize Hpixels Hthree Hshape. rewrite bool_decide_eq_true_2 by done.
  rewrite bool_decide_eq_false_2 by done. rewrite bool_decide_eq_true_2 by done.
  pose proof (masked_shape3 img res Hsize) as Hmasked.
  destruct (fill_zeros_total
    (keep_where img (zero_mask (keep_where img res))) img3) as [out Hout].
  { intros i j k Hzero. eapply shape3_item3; [|by eexists].
    by rewrite Hshape, Hmasked. }
  exists out. split; [done|].
  by rewrite (fill_zeros_shape _ _ _ Hout).
Qed.

End paste_results.

(** X13.  What the compositing cell writes: if it finishes, then at every
    position of the photo the result keeps the photo's channel value when the
    predicted mask is 0 there and the value is non-zero, and holds the
    background picture's value otherwise, that is, wherever the mask is
    non-zero and also wherever the photo's own channel value is 0. *)
Theorem X13_paste_background_pixelwise (img : cv.image) (res : cv.gray)
    (img3 out : cv.image) (i j k : nat) (v : N) :
  paste_background img res img3 = inr out →
  item3 img i j k = Some v →
  ∃ m, np.item res i j = Some m ∧
    (m = 0%N → v ≠ 0%N → item3 out i j k = Some v) ∧
    (m ≠ 0%N ∨ v = 0%N →
     ∃ w, item3 img3 i j k = Some w ∧ item3 out i j k = Some w).
Proof. apply paste_background_item. Qed.

Lemma X13_paste_background_pixelwise_witness :
  ∃ m, np.item [[0; 0]; [9; 0]]%N 1 0 = Some m ∧
    (m = 0%N → 2%N ≠ 0%N →
     item3 [[[10; 101; 30]; [103; 104; 105]]; [[106; 107; 108]; [4; 5; 6]]]%N
       1 0 1 = Some 2%N) ∧
    (m ≠ 0%N ∨ 2%N = 0%N →
     ∃ w, item3 [[[100; 101; 102]; [103; 104; 105]];
                 [[106; 107; 108]; [109; 110; 111]]]%N 1 0 1 = Some w ∧
          item3 [[[10; 101; 30]; [103; 104; 105]]; [[106; 107; 108]; [4; 5; 6]]]%N
            1 0 1 = Some w).
Proof.
  apply (X13_paste_background_pixelwise
           [[[10; 0; 30]; [0; 0; 0]]; [[1; 2; 3]; [4; 5; 6]]]%N
           [[0; 0]; [9; 0]]%N
           [[[100; 101; 102]; [103; 104; 105]]; [[106; 107; 108]; [109; 110; 111]]]%N
           _ 1 0 1 2%N); reflexivity.
Defined.

(** X14.  When the compositing cell fails and when it cannot.  A mask whose
    height or row widths differ from the photo's, a photo without pixels and
    a photo whose pixels do not all have three channels each make an OpenCV
    call raise [cv2.error].  With a matching mask, a non-empty three-channel
    photo and a background picture of the photo's shape, the cell finishes
    with an image of that shape.  An [IndexError] means the background
    picture lacks a position of the photo. *)
Theorem X14_paste_background_errors (img : cv.image) (res : cv.gray)
    (img3 : cv.image) :
  (length <$> img ≠ length <$> res ∨ concat img = [] ∨ ¬ three_channel img →
   paste_background img res img3 = inl Cv2Error) ∧
  (length <$> img = length <$> res → concat img ≠ [] → three_channel img →
   shape3 img3 = shape3 img →
   ∃ out, paste_background img res img3 = inr out ∧ shape3 out = shape3 img) ∧
  (paste_background img res img3 = inl CellIndexError →
   ∃ i j k, is_Some (item3 img i j k) ∧ item3 img3 i j k = None).
Proof.
  split; [|split].
  - rewrite paste_background_eq. intros Hbad.
    case_bool_decide as Hsize; [|done].
    case_bool_decide as Hempty; [done|].
    case_bool_decide as Hthree; [|done].
    by destruct Hbad as [?|[?|?]].
  - apply paste_background_finishes.
  - rewrite paste_background_eq.
    case_bool_decide as Hsize; [|done].
    case_bool_decide as Hempty; [done|].
    case_bool_decide as Hthree; [|done].
    intros (_ & i & j & k & Hzero & Hnone)%fill_zeros_raises.
    exists i, j, k. split; [|done].
    eapply shape3_item3; [|by eexists]. by apply masked_shape3.
Qed.

Lemma X14_paste_background_errors_witness :
  paste_background [[[10; 0; 30; 7]; [0; 0; 0; 7]]]%N [[0; 0]]%N
    [[[1; 2; 3; 4]; [5; 6; 7; 8]]]%N = inl Cv2Error ∧
  ∃ out,
    paste_background [[[10; 0; 30]; [0; 0; 0]]]%N [[0; 9]]%N
      [[[1; 2; 3]; [4; 5; 6]]]%N = inr out ∧
    shape3 out = shape3 [[[10; 0; 30]; [0; 0; 0]]]%N.
Proof.
  split.
  - apply (X14_paste_background_errors [[[10; 0; 30; 7]; [0; 0; 0; 7]]]%N
             [[0; 0]]%N [[[1; 2; 3; 4]; [5; 6; 7; 8]]]%N).
    right. right. intros Hthree.
    apply Forall_cons_1 in Hthree as [Hrow _].
    apply Forall_cons_1 in Hrow as [Hpx _]. discriminate Hpx.
  - apply (X14_paste_background_errors [[[10; 0; 30]; [0; 0; 0]]]%N [[0; 9]]%N
             [[[1; 2; 3]; [4; 5; 6]]]%N).
    + reflexivity.
    + discriminate.
    + repeat constructor.
    + reflexivity.
Defined.

(** X15.  Pasting a picture over itself changes nothing: with the photo as
    its own background and a mask of the photo's size, the cell returns the
    photo, whatever the mask holds, provided the photo has pixels and they
    all have three channels (the case in which OpenCV accepts it). *)
Theorem X15_paste_background_self (img : cv.image) (res : cv.gray) :
  length <$> img = length <$> res →
  concat img ≠ [] →
  three_channel img →
  paste_background img res img = inr img.
Proof.
  intros Hsize Hpixels Hthree.
  destruct (paste_background_finishes img res img Hsize Hpixels Hthree eq_refl)
    as (out & Hout & Hshape).
  rewrite Hout. f_equal. apply image_ext; [done|].
  intros i j k w Hw.
  destruct (shape3_item3 out img i j k Hshape) as [v Hv]; [by eexists|].
  destruct (paste_background_item img res img out i j k v Hout Hv)
    as (m & _ & Hkeep & Hpaste).
  destruct (N.eqb_spec m 0) as [->|Hm], (N.eqb_spec v 0) as [->|Hne].
  - destruct Hpaste as (w' & ? & ?); [by right|]. congruence.
  - rewrite Hkeep in Hw by done. congruence.
  - destruct Hpaste as (w' & ? & ?); [by left|]. congruence.
  - destruct Hpaste as (w' & ? & ?); [by left|]. congruence.
Qed.

Lemma X15_paste_background_self_witness :
  paste_background [[[10; 0; 30]; [0; 0; 0]]; [[1; 2; 3]; [4; 5; 6]]]%N
    [[0; 0]; [9; 0]]%N [[[10; 0; 30]; [0; 0; 0]]; [[1; 2; 3]; [4; 5; 6]]]%N
  = inr [[[10; 0; 30]; [0; 0; 0]]; [[1; 2; 3]; [4; 5; 6]]]%N.
Proof.
  apply (X15_paste_background_self
           [[[10; 0; 30]; [0; 0; 0]]; [[1; 2; 3]; [4; 5; 6]]]%N [[0; 0]; [9; 0]]%N).
  - reflexivity.
  - discriminate.
  - repeat constructor.
Defined.
